(** * Agentic chat backend: a shallow embedding of the request pipeline

    The development follows the three source modules of the backend:
    - [routes/chat.ts]: [parseDecision], [formatForLLM], [streamEvent] and the
      [POST /chat] handler;
    - [services/llmGemini.ts]: [withRetry] and [callGemini];
    - [services/webSearch.ts]: [webSearch], [truncateSnippet], [extractDomain].

    JavaScript strings are sequences of UTF-16 code units, so a string is a
    list of integers; lengths and indices are natural numbers. *)

From Stdlib Require Import ZArith List Bool Lia String Ascii.
From Stdlib Require Import Numbers.DecimalString.
Import ListNotations.
Open Scope Z_scope.

(* ===================================================================== *)
(** * Strings *)
(* ===================================================================== *)

Module JS.

Definition jsstring := list Z.

(** A Basic Latin literal as code units. *)
Definition lit (s : string) : jsstring :=
  map (fun a => Z.of_N (N_of_ascii a)) (list_ascii_of_string s).

Fixpoint eqb (a b : jsstring) : bool :=
  match a, b with
  | [], [] => true
  | x :: a', y :: b' => (x =? y) && eqb a' b'
  | _, _ => false
  end.

(** [WhiteSpace] and [LineTerminator] of ECMAScript: the characters that
    [String.prototype.trim] strips and that the regular expression class
    [\s] accepts. *)
Definition isWhiteSpace (c : Z) : bool :=
  ((9 <=? c) && (c <=? 13))
  || (c =? 32) || (c =? 160) || (c =? 5760)
  || ((8192 <=? c) && (c <=? 8202))
  || (c =? 8232) || (c =? 8233) || (c =? 8239) || (c =? 8287)
  || (c =? 12288) || (c =? 65279).

Fixpoint trimStart (s : jsstring) : jsstring :=
  match s with
  | c :: t => if isWhiteSpace c then trimStart t else s
  | [] => []
  end.

Definition trimEnd (s : jsstring) : jsstring := rev (trimStart (rev s)).

Definition trim (s : jsstring) : jsstring := trimEnd (trimStart s).

(** [String.prototype.toLowerCase] on Basic Latin: A-Z go to a-z.  Code
    units outside Basic Latin are kept as they are; none of them lowercases
    to a letter of [true] or [yes], the only strings a lowercased string is
    compared with here. *)
Definition lowerUnit (c : Z) : Z :=
  if (65 <=? c) && (c <=? 90) then c + 32 else c.

Definition toLowerCase (s : jsstring) : jsstring := map lowerUnit s.

Fixpoint startsWith (s p : jsstring) : bool :=
  match p, s with
  | [], _ => true
  | x :: p', y :: s' => (x =? y) && startsWith s' p'
  | _ :: _, [] => false
  end.

(** [s.includes(p)]: [p] occurs at some position of [s]. *)
Fixpoint includes (s p : jsstring) : bool :=
  startsWith s p ||
  match s with
  | [] => false
  | _ :: t => includes t p
  end.

(** [s.slice(0, n)] for a count [n]. *)
Definition slice0 (s : jsstring) (n : nat) : jsstring := firstn n s.

(** [xs.join(sep)] *)
Fixpoint join (sep : jsstring) (xs : list jsstring) : jsstring :=
  match xs with
  | [] => []
  | [x] => x
  | x :: rest => x ++ sep ++ join sep rest
  end.

(** [s.replace(p, r)] with a string pattern: the first occurrence only. *)
Fixpoint replaceStr (s p r : jsstring) : jsstring :=
  if startsWith s p then r ++ skipn (List.length p) s
  else match s with
       | [] => []
       | c :: t => c :: replaceStr t p r
       end.

(** Decimal rendering of an integer, as [String(n)] gives it. *)
Definition ofZ (n : Z) : jsstring :=
  lit (NilZero.string_of_int (Z.to_int n)).

(** A string is truthy when it is not empty. *)
Definition truthy (s : jsstring) : bool :=
  match s with [] => false | _ => true end.

(** [a || b] on strings that may be [undefined]. *)
Definition orElse (a : option jsstring) (b : jsstring) : jsstring :=
  match a with
  | Some s => if truthy s then s else b
  | None => b
  end.

End JS.

Import JS.

(* ===================================================================== *)
(** * Regular expressions of the shape used by [truncateSnippet] *)
(* ===================================================================== *)

(** A pattern is a sequence of quantified character classes, optionally
    anchored at the end of the input ([$] without the [m] flag).  Quantifiers
    are greedy and backtrack, as in ECMAScript. *)
Module Regex.

Inductive quant := One | Star | Plus.

Record atom := Atom { cls : Z -> bool; q : quant }.

Record pattern := Pattern { atoms : list atom; anchoredEnd : bool }.

(** Greedy repetition of a class, then the continuation [k]; gives the
    input left after the whole match. *)
Fixpoint many (p : Z -> bool) (k : jsstring -> option jsstring)
         (s : jsstring) : option jsstring :=
  match s with
  | c :: t =>
      if p c then
        match many p k t with
        | Some r => Some r
        | None => k s
        end
      else k s
  | [] => k []
  end.

Fixpoint matchAtoms (anch : bool) (l : list atom) (s : jsstring)
  : option jsstring :=
  match l with
  | [] =>
      if anch then match s with [] => Some [] | _ => None end
      else Some s
  | a :: l' =>
      match q a with
      | One =>
          match s with
          | c :: t => if cls a c then matchAtoms anch l' t else None
          | [] => None
          end
      | Star => many (cls a) (matchAtoms anch l') s
      | Plus =>
          match s with
          | c :: t =>
              if cls a c then many (cls a) (matchAtoms anch l') t else None
          | [] => None
          end
      end
  end.

(** A match starting at the head of [s]: the input left after it. *)
Definition matchHere (r : pattern) (s : jsstring) : option jsstring :=
  matchAtoms (anchoredEnd r) (atoms r) s.

(** [s.replace(r, repl)] without the [g] flag: the leftmost match. *)
Fixpoint replace (r : pattern) (repl : jsstring) (s : jsstring) : jsstring :=
  match matchHere r s with
  | Some rest => repl ++ rest
  | None =>
      match s with
      | [] => []
      | c :: t => c :: replace r repl t
      end
  end.

(** [/\s+\S*$/] *)
Definition wsTail : pattern :=
  Pattern [Atom isWhiteSpace Plus;
           Atom (fun c => negb (isWhiteSpace c)) Star] true.

End Regex.

Import Regex.

(* ===================================================================== *)
(** * Data model *)
(* ===================================================================== *)

(** services/webSearch.ts *)
Record SearchResult := {
  title : jsstring;
  link : jsstring;
  snippet : jsstring;
  date : option jsstring;
  source : option jsstring
}.

Record SearchResponse := {
  results : list SearchResult;
  totalResults : Z;
  query : jsstring;
  summary : option jsstring
}.

(** routes/chat.ts *)
Inductive EventType := reasoning | tool_call | response | error | done.

Record StreamEvent := {
  type : EventType;
  content : option jsstring;
  tool : option jsstring;
  input : option jsstring;
  output : option SearchResponse
}.

Definition textEvent (t : EventType) (c : jsstring) : StreamEvent :=
  {| type := t; content := Some c; tool := None; input := None;
     output := None |}.

Definition bareEvent (t : EventType) : StreamEvent :=
  {| type := t; content := None; tool := None; input := None;
     output := None |}.

(* ===================================================================== *)
(** * Exceptions *)
(* ===================================================================== *)

(** The [error] field of an HTTP error body: absent, a string, or an
    object.  Of an object the code reads the [message] property, prints it
    with [console.error] ([printed] is the text that comes out) and
    interpolates it in a template literal, which gives [[object Object]]. *)
Inductive ErrField :=
| ErrAbsent
| ErrString (s : jsstring)
| ErrObject (message : option jsstring) (printed : jsstring).

Record ErrResponse := { status : Z; dataError : ErrField }.

(** An [Error] object.  A rejected axios call fills [response] (when the
    server answered) and [code]; a plain [Error], [TypeError] or [URIError]
    has neither. *)
Record JsError := {
  message : jsstring;
  errResponse : option ErrResponse;
  code : option jsstring
}.

Definition mkError (msg : jsstring) : JsError :=
  {| message := msg; errResponse := None; code := None |}.

(** What a [throw] can carry here: an [Error], or [undefined] (what
    [withRetry] throws when its budget is zero). *)
Inductive Thrown :=
| TError (e : JsError)
| TUndefined.

(* ===================================================================== *)
(** * Effects *)
(* ===================================================================== *)

(** The body of a successful completion response: the value at
    [data.candidates?.[0]?.content?.parts?.[0]?.text]. *)
Record GeminiData := { candidateText : option jsstring }.

(** One element of [organic_results], and the body of a successful search
    response. *)
Record RawResult := {
  r_title : option jsstring;
  r_link : option jsstring;
  r_snippet : option jsstring;
  r_date : option jsstring;
  r_source : option jsstring
}.

Record SearchData := {
  organic_results : option (list RawResult);
  total_results : option Z
}.

Inductive Effect :=
| SetHeader (name value : jsstring)
| FlushHeaders
| Write (e : StreamEvent)        (* res.write of the event's SSE frame *)
| Status (c : Z)
| End
| Post (prompt : jsstring)       (* axios.post to the completion service *)
| Get (q : jsstring)             (* axios.get to the search service *)
| Sleep (ms : Z)                 (* setTimeout awaited *)
| Now                            (* Date.now() or new Date() *)
| ConsoleError (msg : jsstring).

(** What the process and the outside world provide.  Every interaction with
    the outside (a request, a clock reading) takes the next tick; the
    oracles give the answer at that tick.  A failure of the search oracle
    stands for any exception raised inside the [try] block of [webSearch],
    those of a malformed body included. *)
Record Env := {
  WEB_SEARCH_MODE : option jsstring;
  SEARCH_API_KEY : option jsstring;
  postOutcome : nat -> JsError + GeminiData;
  getOutcome : nat -> JsError + SearchData;
  clock : nat -> Z;
  (* new URL(u).hostname, None when the constructor throws *)
  hostnameOf : jsstring -> option jsstring;
  (* Number.prototype.toLocaleString *)
  toLocaleString : Z -> jsstring;
  (* new Date(ms).toISOString().split("T")[0] *)
  isoDay : Z -> jsstring
}.

Record World := { trace : list Effect; tick : nat }.

Definition M (A : Type) : Type := World -> World * (Thrown + A).

Definition ret {A} (a : A) : M A := fun w => (w, inr a).

Definition bind {A B} (m : M A) (k : A -> M B) : M B :=
  fun w =>
    match m w with
    | (w', inr a) => k a w'
    | (w', inl e) => (w', inl e)
    end.

Definition throw {A} (e : Thrown) : M A := fun w => (w, inl e).

(** [try { body } catch (err) { handler err }] *)
Definition tryCatch {A} (body : M A) (handler : Thrown -> M A) : M A :=
  fun w =>
    match body w with
    | (w', inr a) => (w', inr a)
    | (w', inl e) => handler e w'
    end.

(** [try { body } finally { fin }]; an exception of [fin] would replace the
    outcome of [body]. *)
Definition tryFinally {A} (body : M A) (fin : M unit) : M A :=
  fun w =>
    match body w with
    | (w', r) =>
        match fin w' with
        | (w'', inr _) => (w'', r)
        | (w'', inl e) => (w'', inl e)
        end
    end.

Declare Scope js_scope.
Delimit Scope js_scope with js.
Notation "x <- m ;; k" := (bind m (fun x => k))
  (at level 61, m at next level, right associativity) : js_scope.
Notation "m ;;; k" := (bind m (fun _ => k))
  (at level 61, right associativity) : js_scope.
Open Scope js_scope.

Definition emit (e : Effect) : M unit :=
  fun w => ({| trace := trace w ++ [e]; tick := tick w |}, inr tt).

(** An interaction with the outside: logged, answered by the oracle at the
    current tick. *)
Definition ask {A} (e : Effect) (oracle : nat -> Thrown + A) : M A :=
  fun w => ({| trace := trace w ++ [e]; tick := S (tick w) |}, oracle (tick w)).

Definition rejected {A} (o : nat -> JsError + A) : nat -> Thrown + A :=
  fun n => match o n with inl e => inl (TError e) | inr a => inr a end.

Definition axiosPost (env : Env) (prompt : jsstring) : M GeminiData :=
  ask (Post prompt) (rejected (postOutcome env)).

Definition axiosGet (env : Env) (q : jsstring) : M SearchData :=
  ask (Get q) (rejected (getOutcome env)).

Definition dateNow (env : Env) : M Z :=
  ask Now (fun n => inr (clock env n)).

Definition sleep (ms : Z) : M unit := emit (Sleep ms).

(* ===================================================================== *)
(** * services/llmGemini.ts *)
(* ===================================================================== *)

(** [err.response?.status >= 500 || err.code === "ECONNABORTED"] *)
Definition isTransient (e : JsError) : bool :=
  match errResponse e with
  | Some r => 500 <=? status r
  | None => false
  end
  || match code e with
     | Some c => JS.eqb c (lit "ECONNABORTED")
     | None => false
     end.

(** Reading a property of [undefined] raises this [TypeError]. *)
Definition typeErrorReadingResponse : JsError :=
  mkError (lit "Cannot read properties of undefined (reading 'response')").

(** The delay before the retry that follows attempt [i]: [1000 * 2 ** i]. *)
Definition backoffDelay (i : nat) : Z := 1000 * 2 ^ Z.of_nat i.

(** The [for] loop of [withRetry], at counter [i] with [left] iterations to
    go before [i] reaches [retries]. *)
Fixpoint retryLoop {T} (fn : M T) (left : nat) (i : nat) (lastErr : Thrown)
  : M T :=
  match left with
  | O => throw lastErr
  | S left' =>
      tryCatch fn (fun err =>
        match err with
        | TError e =>
            if isTransient e then
              sleep (backoffDelay i) ;;; retryLoop fn left' (S i) err
            else throw err
        | TUndefined => throw (TError typeErrorReadingResponse)
        end)
  end.

Definition withRetry {T} (fn : M T) (retries : nat) : M T :=
  retryLoop fn retries 0 TUndefined.

Definition defaultRetries : nat := 3.

(** [err.response?.data?.error?.message] *)
Definition upstreamMessage (e : JsError) : option jsstring :=
  match errResponse e with
  | Some r =>
      match dataError r with
      | ErrObject m _ => m
      | _ => None
      end
  | None => None
  end.

Definition callGemini (env : Env) (prompt : jsstring) : M jsstring :=
  tryCatch
    (resp <- withRetry (axiosPost env prompt) defaultRetries ;;
     match candidateText resp with
     | Some t =>
         if truthy t then ret (trim t)
         else throw (TError (mkError (lit "Invalid Gemini response format")))
     | None => throw (TError (mkError (lit "Invalid Gemini response format")))
     end)
    (fun err =>
       match err with
       | TError e =>
           let msg := orElse (upstreamMessage e) (message e) in
           emit (ConsoleError msg) ;;;
           throw (TError (mkError (lit "LLM unavailable: " ++ msg)))
       | TUndefined => throw (TError typeErrorReadingResponse)
       end).

(* ===================================================================== *)
(** * services/webSearch.ts *)
(* ===================================================================== *)

Module URI.

(** Characters that [encodeURIComponent] leaves alone:
    [A-Z a-z 0-9 - _ . ! ~ * ' ( )]. *)
Definition unreserved (c : Z) : bool :=
  ((65 <=? c) && (c <=? 90)) || ((97 <=? c) && (c <=? 122))
  || ((48 <=? c) && (c <=? 57))
  || (c =? 45) || (c =? 95) || (c =? 46) || (c =? 33) || (c =? 126)
  || (c =? 42) || (c =? 39) || (c =? 40) || (c =? 41).

Definition hexDigit (n : Z) : Z := if n <? 10 then 48 + n else 55 + n.

(** [%XX] for one octet. *)
Definition pct (b : Z) : jsstring := [37; hexDigit (b / 16); hexDigit (b mod 16)].

(** The UTF-8 octets of a code point. *)
Definition utf8 (cp : Z) : list Z :=
  if cp <? 128 then [cp]
  else if cp <? 2048 then [192 + cp / 64; 128 + cp mod 64]
  else if cp <? 65536 then
    [224 + cp / 4096; 128 + (cp / 64) mod 64; 128 + cp mod 64]
  else
    [240 + cp / 262144; 128 + (cp / 4096) mod 64;
     128 + (cp / 64) mod 64; 128 + cp mod 64].

Definition isHigh (c : Z) : bool := (55296 <=? c) && (c <=? 56319).
Definition isLow (c : Z) : bool := (56320 <=? c) && (c <=? 57343).

(** [encodeURIComponent]; [None] is the [URIError] raised on a surrogate
    that is not part of a pair. *)
Fixpoint encodeURIComponent (s : jsstring) : option jsstring :=
  match s with
  | [] => Some []
  | c :: t =>
      if unreserved c then option_map (cons c) (encodeURIComponent t)
      else if isLow c then None
      else if isHigh c then
        match t with
        | lo :: t' =>
            if isLow lo then
              option_map
                (app (flat_map pct
                        (utf8 ((c - 55296) * 1024 + (lo - 56320) + 65536))))
                (encodeURIComponent t')
            else None
        | [] => None
        end
      else option_map (app (flat_map pct (utf8 c))) (encodeURIComponent t)
  end.

Definition uriError : JsError := mkError (lit "URI malformed").

End URI.

Definition MODE (env : Env) : jsstring :=
  orElse (WEB_SEARCH_MODE env) (lit "mock").

Definition mockResults : list SearchResult :=
  [ {| title := lit "State of AI Report 2025";
       link := lit "https://www.stateof.ai/";
       snippet := lit "The most trusted annual analysis of AI trends. Agentic AI, cost drops, and new regulations dominate 2025.";
       date := Some (lit "2025-10-15");
       source := Some (lit "State of AI Institute") |};
    {| title := lit "Stanford AI Index 2025";
       link := lit "https://hai.stanford.edu/ai-index";
       snippet := lit "AI boosts productivity by 40%. Inference costs down 280x since 2023. 1.2M AI jobs created.";
       date := Some (lit "2025-04-10");
       source := Some (lit "Stanford HAI") |};
    {| title := lit "Gemini 2.5 Flash Released";
       link := lit "https://blog.google/technology/ai/gemini-2-5-flash/";
       snippet := lit "Google's fastest model yet. 128K context, $0.35/M tokens. Free tier: 15 RPM.";
       date := Some (lit "2025-06-20");
       source := Some (lit "Google AI Blog") |} ].

(** The response without results that the failure paths return. *)
Definition emptyResponse (query : jsstring) (why : jsstring) : SearchResponse :=
  {| query := query; totalResults := 0; results := [];
     summary := Some why |}.

(** [maxChars] is a number of characters. *)
Definition truncateSnippet (text : jsstring) (maxChars : nat) : jsstring :=
  if (List.length text <=? maxChars)%nat then text
  else Regex.replace Regex.wsTail [] (slice0 text maxChars) ++ lit "...".

(** [new URL(url).hostname.replace("www.", "")], [null] when the
    constructor throws.  An absent link is converted to the string
    [undefined] by the constructor. *)
Definition extractDomain (env : Env) (url : option jsstring)
  : option jsstring :=
  let u := match url with Some u => u | None => lit "undefined" end in
  match hostnameOf env u with
  | Some h => Some (replaceStr h (lit "www.") [])
  | None => None
  end.

Definition snippetCap : nat := 300.

Definition mapResult (env : Env) (r : RawResult) : SearchResult :=
  {| title := orElse (r_title r) (lit "Untitled");
     link := orElse (r_link r) (lit "#");
     snippet := truncateSnippet (orElse (r_snippet r) []) snippetCap;
     date := match r_date r with
             | Some d => if truthy d then Some d else None
             | None => None
             end;
     source := Some (orElse (extractDomain env (r_link r))
                            (orElse (r_source r) (lit "Unknown"))) |}.

(** An element of an array of optional strings as [join] renders it. *)
Definition joined (s : option jsstring) : jsstring :=
  match s with Some x => x | None => [] end.

Definition synthSummary (env : Env) (total : Z) (results : list SearchResult)
  : jsstring :=
  match results with
  | [] => lit "No results found."
  | _ :: _ =>
      lit "Found " ++ toLocaleString env total
      ++ lit " results. Top sources: "
      ++ join (lit ", ") (map (fun r => joined (source r)) (firstn 3 results))
      ++ lit "."
  end.

(** [err.response?.data?.error || err.message], as the template literal
    renders it. *)
Definition searchFailureText (e : JsError) : jsstring :=
  match errResponse e with
  | Some r =>
      match dataError r with
      | ErrString s => if truthy s then s else message e
      | ErrObject _ _ => lit "[object Object]"
      | ErrAbsent => message e
      end
  | None => message e
  end.

(** The same value as [console.error] prints it after the label: a string
    as it is, an object in its printed form. *)
Definition searchFailureLog (e : JsError) : jsstring :=
  match errResponse e with
  | Some r =>
      match dataError r with
      | ErrString s => if truthy s then s else message e
      | ErrObject _ printed => printed
      | ErrAbsent => message e
      end
  | None => message e
  end.

Definition webSearch (env : Env) (query : jsstring) : M SearchResponse :=
  match URI.encodeURIComponent (trim query) with
  | None => throw (TError URI.uriError)
  | Some safeQuery =>
      if JS.eqb (MODE env) (lit "mock") then
        ret {| query := query; totalResults := 3; results := mockResults;
               summary := None |}
      else if negb (truthy (joined (SEARCH_API_KEY env))) then
        ret (emptyResponse query (lit "Search API key missing."))
      else
        tryCatch
          (resp <- axiosGet env safeQuery ;;
           let organic :=
             match organic_results resp with Some l => l | None => [] end in
           let total :=
             match total_results resp with Some n => n | None => 0 end in
           let results := map (mapResult env) (firstn 10 organic) in
           ret {| query := query; totalResults := total; results := results;
                  summary := Some (synthSummary env total results) |})
          (fun err =>
             match err with
             | TError e =>
                 emit (ConsoleError
                         (lit "Search API Error: " ++ searchFailureLog e)) ;;;
                 ret (emptyResponse query
                        (lit "Search failed: " ++ searchFailureText e))
             | TUndefined => throw (TError typeErrorReadingResponse)
             end)
  end.

(* ===================================================================== *)
(** * routes/chat.ts *)
(* ===================================================================== *)

Definition parseDecision (raw : jsstring) : bool :=
  let norm := toLowerCase (trim raw) in
  JS.eqb norm (lit "true") || includes norm (lit "yes").

Definition dq : jsstring := [34].        (* double quote *)
Definition nl : jsstring := [10].        (* line feed *)
Definition bullet : jsstring := [8226].
Definition arrow : jsstring := [8594].
Definition enDash : jsstring := [8211].
Definition ellipsis : jsstring := [8230].

(** A template hole filled with a string that may be [undefined]. *)
Definition shown (s : option jsstring) : jsstring :=
  match s with Some x => x | None => lit "undefined" end.

(** [xs.map((r, i) => f r i)], with [i] counted from [i0]. *)
Fixpoint mapi {A B} (f : A -> Z -> B) (i0 : Z) (xs : list A) : list B :=
  match xs with
  | [] => []
  | x :: t => f x i0 :: mapi f (i0 + 1) t
  end.

Definition formatLine (r : SearchResult) (i : Z) : jsstring :=
  let dateText :=
    match date r with
    | Some d => if truthy d then lit " (" ++ d ++ lit ")" else []
    | None => []
    end in
  lit "[" ++ ofZ (i + 1) ++ lit "] " ++ dq ++ title r ++ dq ++ nl
  ++ lit "    " ++ snippet r ++ nl
  ++ lit "    " ++ arrow ++ lit " " ++ link r ++ dateText
  ++ lit " (via " ++ shown (source r) ++ lit ")".

Definition formatForLLM (env : Env) (searchData : SearchResponse) : jsstring :=
  match results searchData with
  | [] => lit "No search results found."
  | _ :: _ =>
      let lines := mapi formatLine 0 (results searchData) in
      lit "Search results for " ++ dq ++ query searchData ++ dq ++ lit " ("
      ++ toLocaleString env (totalResults searchData) ++ lit " total):"
      ++ nl ++ nl ++ join (nl ++ nl) lines ++ nl ++ nl
      ++ lit "Use [1], [2], etc. to cite sources inline."
  end.

(** [streamEvent]: write the frame, then flush. *)
Definition streamEvent (event : StreamEvent) : M unit :=
  emit (Write event) ;;; emit FlushHeaders.

Definition sixMonthsMs : Z := 6 * 30 * 24 * 60 * 60 * 1000.

Definition decisionPrompt (cutoffDate safeQuery : jsstring) : jsstring :=
  trim
    (nl ++ lit "You are a binary classifier for tool usage. Answer **only** "
     ++ dq ++ lit "true" ++ dq ++ lit " or " ++ dq ++ lit "false" ++ dq
     ++ lit "." ++ nl ++ nl
     ++ dq ++ lit "true" ++ dq ++ lit " if query needs real-time/post-"
     ++ cutoffDate ++ lit " data:" ++ nl
     ++ bullet ++ lit " Events after " ++ cutoffDate
     ++ lit " (e.g., 2025 AI state)" ++ nl
     ++ bullet ++ lit " Live stats (prices, weather, elections)" ++ nl
     ++ bullet ++ lit " Recent changes (laws, releases)" ++ nl
     ++ bullet ++ lit " System status" ++ nl ++ nl
     ++ dq ++ lit "false" ++ dq ++ lit " otherwise (timeless facts, math, pre-"
     ++ cutoffDate ++ lit ", hypotheticals)." ++ nl ++ nl
     ++ lit "Query: " ++ dq ++ dq ++ dq ++ safeQuery ++ dq ++ dq ++ dq ++ nl).

Definition finalPrompt (today safeQuery : jsstring) (needSearch : bool)
           (searchResultsForPrompt : jsstring) : jsstring :=
  trim
    (nl ++ lit "You are a concise, factual assistant. Current date: "
     ++ today ++ lit "." ++ nl
     ++ lit "Query: " ++ dq ++ dq ++ dq ++ safeQuery ++ dq ++ dq ++ dq
     ++ nl ++ nl
     ++ (if needSearch then
           lit "Search results (cite with [1], [2], etc.):" ++ nl
           ++ searchResultsForPrompt ++ nl ++ lit "---"
         else [])
     ++ nl ++ nl
     ++ lit "Respond in 3" ++ enDash
     ++ lit "5 sentences with detailed explanations. Be factual and comprehensive. Cite sources inline using [1], [2], etc. after relevant facts."
     ++ nl).

(** A JSON value as the body parser delivers it. *)
Inductive JsValue :=
| VUndefined
| VNull
| VBool (b : bool)
| VNumber (n : Z)
| VString (s : jsstring)
| VObject.

(** [req.body]: absent, or an object given by its properties. *)
Record Request := { body : option (list (jsstring * JsValue)) }.

Fixpoint getProp (o : list (jsstring * JsValue)) (k : jsstring) : JsValue :=
  match o with
  | [] => VUndefined
  | (k', v) :: o' => if JS.eqb k' k then v else getProp o' k
  end.

(** [const { query } = req.body ?? {}] *)
Definition requestQuery (req : Request) : JsValue :=
  match body req with
  | Some o => getProp o (lit "query")
  | None => VUndefined
  end.

Definition toolCallEvent (safeQuery : jsstring) (searchData : SearchResponse)
  : StreamEvent :=
  {| type := tool_call; content := None; tool := Some (lit "web_search");
     input := Some safeQuery; output := Some searchData |}.

(** The [try] block of the handler, step by step as the source numbers
    them. *)

(** Step 1: acknowledge. *)
Definition acknowledge (safeQuery : jsstring) : M unit :=
  streamEvent (textEvent reasoning
                 (lit "Received: " ++ dq ++ safeQuery ++ dq)).

(** Step 2: the completion service decides whether the tool is needed. *)
Definition decide (env : Env) (safeQuery : jsstring) : M bool :=
  t <- dateNow env ;;
  let cutoffDate := isoDay env (t - sixMonthsMs) in
  streamEvent (textEvent reasoning (lit "Deciding if tool needed...")) ;;;
  decisionRaw <- callGemini env (decisionPrompt cutoffDate safeQuery) ;;
  let needSearch := parseDecision decisionRaw in
  streamEvent (textEvent reasoning
                 (if needSearch then lit "Tool call required for fresh data."
                  else lit "Internal knowledge sufficient.")) ;;;
  ret needSearch.

(** Step 3: the tool call, if needed; gives [searchResultsForPrompt]. *)
Definition toolCall (env : Env) (safeQuery : jsstring) (needSearch : bool)
  : M jsstring :=
  if needSearch then
    streamEvent (textEvent reasoning (lit "Searching the web" ++ ellipsis)) ;;;
    searchData <- webSearch env safeQuery ;;
    streamEvent (toolCallEvent safeQuery searchData) ;;;
    ret (formatForLLM env searchData)
  else ret [].

(** Step 4: refine and generate the final answer. *)
Definition synthesize (env : Env) (safeQuery : jsstring) (needSearch : bool)
           (searchResultsForPrompt : jsstring) : M unit :=
  today <- dateNow env ;;
  streamEvent (textEvent reasoning (lit "Refining answer...")) ;;;
  answer <- callGemini env
              (finalPrompt (isoDay env today) safeQuery needSearch
                 searchResultsForPrompt) ;;
  streamEvent (textEvent response
                 (if truthy answer then answer
                  else lit "(no answer generated)")).

(** Metrics, and the end of the stream of events. *)
Definition finalize (env : Env) (startTime : Z) : M unit :=
  finish <- dateNow env ;;
  let duration := finish - startTime in
  streamEvent (textEvent reasoning
                 (lit "Completed in " ++ ofZ duration ++ lit "ms")) ;;;
  streamEvent (bareEvent done).

Definition pipeline (env : Env) (safeQuery : jsstring) (startTime : Z)
  : M unit :=
  acknowledge safeQuery ;;;
  needSearch <- decide env safeQuery ;;
  searchResultsForPrompt <- toolCall env safeQuery needSearch ;;
  synthesize env safeQuery needSearch searchResultsForPrompt ;;;
  finalize env startTime.

(** The [catch] block of the handler. *)
Definition onError (err : Thrown) : M unit :=
  let msg :=
    match err with
    | TError e => message e
    | TUndefined => lit "Unknown error"
    end in
  streamEvent (textEvent error (lit "Agent error: " ++ msg)) ;;;
  emit (ConsoleError (lit "[/chat] Error:")).

(** [router.post("/chat", ...)] *)
Definition chat (env : Env) (req : Request) : M unit :=
  emit (SetHeader (lit "Content-Type") (lit "text/event-stream")) ;;;
  emit (SetHeader (lit "Cache-Control") (lit "no-cache, no-transform")) ;;;
  emit (SetHeader (lit "Connection") (lit "keep-alive")) ;;;
  emit FlushHeaders ;;;
  let reject :=
    streamEvent (textEvent error (lit "Valid 'query' string required")) ;;;
    emit (Status 400) ;;;
    emit End in
  match requestQuery req with
  | VString query =>
      if negb (truthy (trim query)) then reject
      else
        let safeQuery := trim query in
        startTime <- dateNow env ;;
        tryFinally (tryCatch (pipeline env safeQuery startTime) onError)
                   (emit End)
  | _ => reject
  end.

(** The start of a request: nothing written yet. *)
Definition initial : World := {| trace := []; tick := 0%nat |}.

(** The events written to the stream, in order. *)
Fixpoint events (tr : list Effect) : list StreamEvent :=
  match tr with
  | [] => []
  | Write e :: t => e :: events t
  | _ :: t => events t
  end.

Definition isEnd (e : Effect) : bool :=
  match e with End => true | _ => false end.

Definition isToolCall (e : StreamEvent) : bool :=
  match type e with tool_call => true | _ => false end.

(** An outside call: to the completion service or to the search service. *)
Definition isClientCall (e : Effect) : bool :=
  match e with Post _ | Get _ => true | _ => false end.

Definition count {A} (p : A -> bool) (l : list A) : nat :=
  List.length (filter p l).

(* ===================================================================== *)
(** * Vocabulary of the statements, and concrete inputs *)
(* ===================================================================== *)

(** The trimmed, lowercased form of a raw decision. *)
Definition normalized (raw : jsstring) : jsstring := toLowerCase (trim raw).

(** [p] occurs in [s]. *)
Definition occursIn (p s : jsstring) : Prop :=
  exists pre post, s = pre ++ p ++ post.

(** A negated reply of the completion service. *)
Definition noThinkSo : jsstring := lit "No, I don't think so".

(** [\S] *)
Definition nonWs (c : Z) : bool := negb (isWhiteSpace c).

(** The end anchor as a continuation. *)
Definition atEnd (s : jsstring) : option jsstring :=
  match s with [] => Some [] | _ => None end.

(** [\S*$] as a continuation. *)
Definition wordToEnd : jsstring -> option jsstring := many nonWs atEnd.

(** [s.replace(/\s+\S*$/, r)] with the empty string for [r]. *)
Definition strip (s : jsstring) : jsstring := replace wsTail [] s.

(** A 301-character word, and a 299-character word followed by a second
    word. *)
Definition longWord : jsstring := repeat 97 301.
Definition twoWords : jsstring := repeat 97 299 ++ [32] ++ repeat 98 5.

(** [k] failed rounds starting at counter [i]: each is the call followed by
    the backoff delay of its round. *)
Definition rounds (call : Effect) (i k : nat) : list Effect :=
  List.concat (map (fun j => [call; Sleep (backoffDelay j)]) (seq i k)).

(** The error a loop holds after [k] failures. *)
Definition lastOf (errs : nat -> JsError) (k : nat) (before : Thrown)
  : Thrown :=
  match k with
  | O => before
  | S k' => TError (errs k')
  end.

(** The world [w] after the effects [tr], [n] of them outside interactions. *)
Definition after (w : World) (tr : list Effect) (n : nat) : World :=
  {| trace := trace w ++ tr; tick := tick w + n |}.

(** The operation: one outside call, answered by [outcome]. *)
Definition operation {T} (call : Effect) (outcome : nat -> JsError + T)
  : M T :=
  ask call (rejected outcome).

(** From tick [n] on, the next [k] calls fail with [errs 0 .. errs (k-1)],
    all transient. *)
Definition failsTransiently {T} (outcome : nat -> JsError + T) (n : nat)
           (errs : nat -> JsError) (k : nat) : Prop :=
  forall j, (j < k)%nat ->
    outcome (n + j)%nat = inl (errs j) /\ isTransient (errs j) = true.

(** The delays slept, in order. *)
Fixpoint sleeps (tr : list Effect) : list Z :=
  match tr with
  | [] => []
  | Sleep ms :: t => ms :: sleeps t
  | _ :: t => sleeps t
  end.

(** A 503 answer and a client-side timeout, as axios reports them. *)
Definition err503 : JsError :=
  {| message := lit "Request failed with status code 503";
     errResponse := Some {| status := 503; dataError := ErrAbsent |};
     code := Some (lit "ERR_BAD_RESPONSE") |}.

Definition errTimeout : JsError :=
  {| message := lit "timeout of 60000ms exceeded";
     errResponse := None;
     code := Some (lit "ECONNABORTED") |}.

(** An operation that fails with the two, then gives 7. *)
Definition twoFailures : nat -> JsError + Z :=
  fun n => match n with
           | O => inl err503
           | S O => inl errTimeout
           | _ => inr 7
           end.

Definition twoErrors : nat -> JsError :=
  fun j => match j with O => err503 | _ => errTimeout end.

(** Connection failures as axios reports them: no response, and a code
    that is not [ECONNABORTED]. *)
Definition errRefused : JsError :=
  {| message := lit "connect ECONNREFUSED 127.0.0.1:443";
     errResponse := None;
     code := Some (lit "ECONNREFUSED") |}.

Definition errReset : JsError :=
  {| message := lit "read ECONNRESET";
     errResponse := None;
     code := Some (lit "ECONNRESET") |}.

Definition errTimedOut : JsError :=
  {| message := lit "connect ETIMEDOUT 142.250.0.1:443";
     errResponse := None;
     code := Some (lit "ETIMEDOUT") |}.

(** An operation whose connection is refused once, and which would give 7
    from then on. *)
Definition refusedOnce : nat -> JsError + Z :=
  fun n => match n with
           | O => inl errRefused
           | _ => inr 7
           end.

(** An operation that always answers 503, and one that fails with a 503 and
    is then refused. *)
Definition alwaysDown : nat -> JsError + Z := fun _ => inl err503.

Definition downThenRefused : nat -> JsError + Z :=
  fun n => match n with
           | O => inl err503
           | _ => inl errRefused
           end.

(** The failures that the retry wrapper takes for transient, spelled out:
    a response with a status of 500 or more, or the code [ECONNABORTED]. *)
Definition serverErrorOrAborted (e : JsError) : Prop :=
  (exists r, errResponse e = Some r /\ (500 <=? status r) = true)
  \/ code e = Some (lit "ECONNABORTED").

(** Live mode with a credential. *)
Definition liveWithKey (env : Env) : Prop :=
  JS.eqb (MODE env) (lit "mock") = false
  /\ truthy (joined (SEARCH_API_KEY env)) = true.

(** Live mode without one. *)
Definition liveWithoutKey (env : Env) : Prop :=
  JS.eqb (MODE env) (lit "mock") = false
  /\ truthy (joined (SEARCH_API_KEY env)) = false.

(** The query can be percent-encoded: no surrogate stands alone. *)
Definition encodes (query safeQuery : jsstring) : Prop :=
  URI.encodeURIComponent (trim query) = Some safeQuery.

(** The sources of results, as the summary lists them. *)
Definition sourcesOf (rs : list SearchResult) : list jsstring :=
  map (fun r => joined (source r)) rs.

(** A query made of one high surrogate. *)
Definition loneSurrogate : jsstring := [55296].

(** The characters of [s] up to the first of [/ ? # :]. *)
Fixpoint takeHost (s : jsstring) : jsstring :=
  match s with
  | [] => []
  | c :: t =>
      if (c =? 47) || (c =? 63) || (c =? 35) || (c =? 58) then []
      else c :: takeHost t
  end.

(** The hostname of a link of the form [http(s)://host/...]; the [URL]
    class gives the same on such links when the host is plain lowercase
    ASCII, and throws on a string without a scheme. *)
Definition simpleHostname (u : jsstring) : option jsstring :=
  let after_scheme :=
    if startsWith u (lit "https://") then Some (skipn 8 u)
    else if startsWith u (lit "http://") then Some (skipn 7 u)
    else None in
  match after_scheme with
  | Some r => if truthy (takeHost r) then Some (takeHost r) else None
  | None => None
  end.

(** [n] in decimal, padded with zeros to [width] digits. *)
Definition pad (width : nat) (n : Z) : jsstring :=
  let d := ofZ n in
  repeat 48 (width - List.length d) ++ d.

(** The UTC calendar day of a time in milliseconds, [YYYY-MM-DD], for years
    0 to 9999. *)
Definition isoDayUTC (ms : Z) : jsstring :=
  let z := ms / 86400000 + 719468 in
  let era := z / 146097 in
  let doe := z - era * 146097 in
  let yoe := (doe - doe / 1460 + doe / 36524 - doe / 146096) / 365 in
  let doy := doe - (365 * yoe + yoe / 4 - yoe / 100) in
  let mp := (5 * doy + 2) / 153 in
  let d := doy - (153 * mp + 2) / 5 + 1 in
  let m := if mp <? 10 then mp + 3 else mp - 9 in
  let y := yoe + era * 400 + (if m <=? 2 then 1 else 0) in
  pad 4 y ++ lit "-" ++ pad 2 m ++ lit "-" ++ pad 2 d.

(** A result of the search service with the link [url]. *)
Definition hit (url : string) : RawResult :=
  {| r_title := Some (lit "A page"); r_link := Some (lit url);
     r_snippet := Some (lit "Some text."); r_date := None;
     r_source := None |}.

(** Four results, the first two from one site. *)
Definition fourHits : SearchData :=
  {| organic_results :=
       Some [hit "https://a.com/1"; hit "https://a.com/2";
             hit "https://b.org/"; hit "https://c.net/x"];
     total_results := Some 4 |}.

(** A process in live mode with a credential, a completion service that
    always answers [true], and a search service that answers [fourHits].
    Numbers below 1000 are rendered by [toLocaleString] as plain decimals. *)
Definition liveEnv : Env :=
  {| WEB_SEARCH_MODE := Some (lit "live");
     SEARCH_API_KEY := Some (lit "secret");
     postOutcome := fun _ => inr {| candidateText := Some (lit "true") |};
     getOutcome := fun _ => inr fourHits;
     clock := fun n => 1700000000000 + 40 * Z.of_nat n;
     hostnameOf := simpleHostname;
     toLocaleString := ofZ;
     isoDay := isoDayUTC |}.

(** Distinct strings of a list, in order of first occurrence. *)
Fixpoint distinct (seen xs : list jsstring) : list jsstring :=
  match xs with
  | [] => []
  | x :: t =>
      if existsb (JS.eqb x) seen then distinct seen t
      else x :: distinct (x :: seen) t
  end.

Definition weather : jsstring := lit "current weather in Paris".

(** A query that the handler must refuse: not a string (a missing
    property reads as [undefined]), or a string of whitespace only, the
    empty string included. *)
Definition blankQuery (v : JsValue) : Prop :=
  match v with
  | VString s => forallb isWhiteSpace s = true
  | _ => True
  end.

(** What a refused request leaves on the response. *)
Definition refusal : list Effect :=
  [ SetHeader (lit "Content-Type") (lit "text/event-stream");
    SetHeader (lit "Cache-Control") (lit "no-cache, no-transform");
    SetHeader (lit "Connection") (lit "keep-alive");
    FlushHeaders;
    Write (textEvent error (lit "Valid 'query' string required"));
    FlushHeaders;
    Status 400;
    End ].

(** A request whose query is whitespace only. *)
Definition spaces : Request :=
  {| body := Some [(lit "query", VString [32; 9; 160; 10])] |}.

(** From tick [n] on, the completion service fails transiently [k] times,
    [k] below the retry budget, and then answers with a text whose trimmed
    form is [answer]. *)
Definition completion (env : Env) (n k : nat) (answer : jsstring) : Prop :=
  exists errs t,
    failsTransiently (postOutcome env) n errs k
    /\ (k < defaultRetries)%nat
    /\ postOutcome env (n + k) = inr {| candidateText := Some t |}
    /\ truthy t = true
    /\ answer = trim t.

(** The request with the query [query]. *)
Definition askFor (query : jsstring) : Request :=
  {| body := Some [(lit "query", VString query)] |}.

(** The events of a request answered from internal knowledge. *)
Definition directAnswer (safeQuery answer : jsstring) (duration : Z)
  : list StreamEvent :=
  [ textEvent reasoning (lit "Received: " ++ dq ++ safeQuery ++ dq);
    textEvent reasoning (lit "Deciding if tool needed...");
    textEvent reasoning (lit "Internal knowledge sufficient.");
    textEvent reasoning (lit "Refining answer...");
    textEvent response
      (if truthy answer then answer else lit "(no answer generated)");
    textEvent reasoning (lit "Completed in " ++ ofZ duration ++ lit "ms");
    bareEvent done ].

(** The events of a request whose synthesis call fails with [msg]: the
    first four of [directAnswer] and one error event. *)
Definition directFailure (safeQuery msg : jsstring) : list StreamEvent :=
  [ textEvent reasoning (lit "Received: " ++ dq ++ safeQuery ++ dq);
    textEvent reasoning (lit "Deciding if tool needed...");
    textEvent reasoning (lit "Internal knowledge sufficient.");
    textEvent reasoning (lit "Refining answer...");
    textEvent error (lit "Agent error: " ++ lit "LLM unavailable: " ++ msg) ].

(** The call of the completion client that starts at tick [n] does not
    complete: no number of transient failures below the budget is followed
    by an answer with a text. *)
Definition callFails (env : Env) (n : nat) : Prop :=
  forall k answer, ~ completion env n k answer.

(** A process in mock mode whose completion service fails once with a 503,
    then answers [false] to the decision prompt and gives an answer to the
    synthesis prompt. *)
Definition directEnv : Env :=
  {| WEB_SEARCH_MODE := None;
     SEARCH_API_KEY := None;
     postOutcome := fun n =>
       match n with
       | 2%nat => inl err503
       | 3%nat => inr {| candidateText := Some (lit "false") |}
       | _ => inr {| candidateText := Some (lit "2 + 2 = 4.") |}
       end;
     getOutcome := fun _ => inr fourHits;
     clock := fun n => 1700000000000 + 40 * Z.of_nat n;
     hostnameOf := simpleHostname;
     toLocaleString := ofZ;
     isoDay := isoDayUTC |}.

(** The same, but the synthesis call is refused with a 400. *)
Definition err400 : JsError :=
  {| message := lit "Request failed with status code 400";
     errResponse :=
       Some {| status := 400;
               dataError :=
                 ErrObject (Some (lit "API key not valid"))
                   (lit "{ code: 400, message: 'API key not valid' }") |};
     code := Some (lit "ERR_BAD_REQUEST") |}.

Definition refusedEnv : Env :=
  {| WEB_SEARCH_MODE := None;
     SEARCH_API_KEY := None;
     postOutcome := fun n =>
       match n with
       | 2%nat => inr {| candidateText := Some (lit "false") |}
       | _ => inl err400
       end;
     getOutcome := fun _ => inr fourHits;
     clock := fun n => 1700000000000 + 40 * Z.of_nat n;
     hostnameOf := simpleHostname;
     toLocaleString := ofZ;
     isoDay := isoDayUTC |}.

Definition twoPlusTwo : jsstring := lit "What is 2+2?".

(** How often a trace ends the stream, and how many tool-call events it
    writes. *)
Definition ends (tr : list Effect) : nat := count isEnd tr.

Definition toolCalls (tr : list Effect) : nat := count isToolCall (events tr).

(** A stretch of effects that does not end the stream and writes at most
    [n] tool-call events. *)
Definition Calm (n : nat) (tr : list Effect) : Prop :=
  ends tr = 0%nat /\ (toolCalls tr <= n)%nat.

(** Whatever the world, [m] appends to the trace a stretch satisfying [P]. *)
Definition Traces {A} (m : M A) (P : list Effect -> Prop) : Prop :=
  forall w, exists tr, trace (fst (m w)) = trace w ++ tr /\ P tr.

(** The steps that follow the decision. *)
Definition afterDecision (env : Env) (safeQuery : jsstring) (startTime : Z)
           (needSearch : bool) : M unit :=
  searchResultsForPrompt <- toolCall env safeQuery needSearch ;;
  synthesize env safeQuery needSearch searchResultsForPrompt ;;;
  finalize env startTime.

(** The [try], [catch] and [finally] of the handler around a body. *)
Definition guarded (m : M unit) : M unit :=
  tryFinally (tryCatch m onError) (emit End).

(** The world in which the decision has been taken and announced. *)
Definition decided (env : Env) (safeQuery : jsstring) (k : nat) (raw : jsstring)
  : World :=
  let p := decisionPrompt (isoDay env (clock env 1 - sixMonthsMs)) safeQuery in
  {| trace :=
       [ SetHeader (lit "Content-Type") (lit "text/event-stream");
         SetHeader (lit "Cache-Control") (lit "no-cache, no-transform");
         SetHeader (lit "Connection") (lit "keep-alive");
         FlushHeaders; Now;
         Write (textEvent reasoning
                  (lit "Received: " ++ dq ++ safeQuery ++ dq));
         FlushHeaders; Now;
         Write (textEvent reasoning (lit "Deciding if tool needed..."));
         FlushHeaders ]
       ++ rounds (Post p) 0 k
       ++ [ Post p;
            Write (textEvent reasoning
                     (if parseDecision raw
                      then lit "Tool call required for fresh data."
                      else lit "Internal knowledge sufficient."));
            FlushHeaders ];
     tick := 3 + k |}.

(** Steps 4 and after. *)
Definition wrapUp (env : Env) (safeQuery : jsstring) (startTime : Z)
           (needSearch : bool) (searchResultsForPrompt : jsstring) : M unit :=
  synthesize env safeQuery needSearch searchResultsForPrompt ;;;
  finalize env startTime.

(** The SSE headers that open every response. *)
Definition headers : list Effect :=
  [ SetHeader (lit "Content-Type") (lit "text/event-stream");
    SetHeader (lit "Cache-Control") (lit "no-cache, no-transform");
    SetHeader (lit "Connection") (lit "keep-alive");
    FlushHeaders ].

(** The errors [e], then those of [errs]. *)
Definition consErr (e : JsError) (errs : nat -> JsError) : nat -> JsError :=
  fun j => match j with O => e | S j' => errs j' end.

(** How a run of the retry loop can end: on the call that follows [k]
    failed rounds, with that call's outcome, which is a value or an error
    that is not transient; or with the budget used up after [left] failed
    rounds, the last error thrown. *)
Definition retryShape {T} (call : Effect) (outcome : nat -> JsError + T)
           (left i : nat) (lastErr : Thrown) (w : World)
           (run : World * (Thrown + T)) : Prop :=
  exists k errs,
    failsTransiently outcome (tick w) errs k
    /\ (((k < left)%nat
         /\ run = ({| trace := trace w ++ rounds call i k ++ [call];
                      tick := S (tick w + k) |},
                   rejected outcome (tick w + k)%nat)
         /\ (forall e, outcome (tick w + k)%nat = inl e ->
                       isTransient e = false))
        \/ (k = left
            /\ run = (after w (rounds call i left) left,
                      inl (lastOf errs left lastErr)))).

(** The requests of a trace to the completion service, and the time slept. *)
Definition isPost (e : Effect) : bool :=
  match e with Post _ => true | _ => false end.

Definition slept (tr : list Effect) : Z := fold_right Z.add 0 (sleeps tr).

(** The last attempt of the completion client: made when fewer than three
    rounds failed. *)
Definition lastAttempt (p : jsstring) (k : nat) : list Effect :=
  if (k <? defaultRetries)%nat then [Post p] else [].

(** How a call of the completion client ends: with a text and nothing
    logged, or with the message logged and an error carrying it thrown. *)
Definition geminiEnding (log : list Effect) (result : Thrown + jsstring)
  : Prop :=
  (exists answer, result = inr answer /\ log = [])
  \/ (exists msg,
        result = inl (TError (mkError (lit "LLM unavailable: " ++ msg)))
        /\ log = [ConsoleError msg]).

(** [String.prototype.isWellFormed]: every surrogate is part of a pair. *)
Fixpoint isWellFormed (s : jsstring) : bool :=
  match s with
  | [] => true
  | c :: t =>
      if URI.isHigh c then
        match t with
        | lo :: t' => URI.isLow lo && isWellFormed t'
        | [] => false
        end
      else negb (URI.isLow c) && isWellFormed t
  end.

(** A result as the rest of the pipeline may rely on it: title, link and
    source are present and not empty, the snippet has at most the cap and
    three dots, and a date, when present, is not empty. *)
Definition normalResult (r : SearchResult) : bool :=
  truthy (title r) && truthy (link r)
  && (List.length (snippet r) <=? snippetCap + 3)%nat
  && match source r with Some s => truthy s | None => false end
  && match date r with Some d => truthy d | None => true end.

(** No request is possible: mock mode (also when [WEB_SEARCH_MODE] is unset
    or empty), or no credential. *)
Definition offline (env : Env) : Prop :=
  JS.eqb (MODE env) (lit "mock") = true
  \/ truthy (joined (SEARCH_API_KEY env)) = false.

(** A process without any configuration, and one in live mode without a
    credential. *)
Definition bareEnv : Env :=
  {| WEB_SEARCH_MODE := None;
     SEARCH_API_KEY := None;
     postOutcome := fun _ => inl err503;
     getOutcome := fun _ => inl err503;
     clock := fun n => 1700000000000 + 40 * Z.of_nat n;
     hostnameOf := simpleHostname;
     toLocaleString := ofZ;
     isoDay := isoDayUTC |}.

(** Live mode with a credential and a search service that is down. *)
Definition downEnv : Env :=
  {| WEB_SEARCH_MODE := Some (lit "live");
     SEARCH_API_KEY := Some (lit "secret");
     postOutcome := fun _ => inr {| candidateText := Some (lit "true") |};
     getOutcome := fun _ => inl err503;
     clock := fun n => 1700000000000 + 40 * Z.of_nat n;
     hostnameOf := simpleHostname;
     toLocaleString := ofZ;
     isoDay := isoDayUTC |}.

(** The events that end a stream of events. *)
Definition isTerminal (ev : StreamEvent) : bool :=
  match type ev with done | error => true | _ => false end.

(** The bound of a retry loop of [left] iterations from counter [i], for a
    cost [c] per attempt and [cSleep j] for the delay of round [j]. *)
Fixpoint retryBound (c : nat) (cSleep : nat -> nat) (left i : nat) : nat :=
  match left with
  | O => 0
  | S left' => c + (cSleep i + retryBound c cSleep left' (S i))
  end.

(** Every write of a trace is followed at once by a flush. *)
Fixpoint flushed (tr : list Effect) : bool :=
  match tr with
  | [] => true
  | Write _ :: t =>
      match t with
      | FlushHeaders :: t' => flushed t'
      | _ => false
      end
  | _ :: t => flushed t
  end.

(** The cost of a trace, for a cost of each effect. *)
Definition total (cost : Effect -> nat) (tr : list Effect) : nat :=
  list_sum (map cost tr).

Definition postCost (e : Effect) : nat :=
  match e with Post _ => 1 | _ => 0 end.

Definition getCost (e : Effect) : nat :=
  match e with Get _ => 1 | _ => 0 end.

Definition clockCost (e : Effect) : nat :=
  match e with Now => 1 | _ => 0 end.

Definition sleepCost (e : Effect) : nat :=
  match e with Sleep ms => Z.to_nat ms | _ => 0 end.

(** What the handler writes when the pipeline throws [err]. *)
Definition errorEnding (err : Thrown) : list Effect :=
  [ Write (textEvent error
             (lit "Agent error: "
              ++ match err with
                 | TError e => message e
                 | TUndefined => lit "Unknown error"
                 end));
    FlushHeaders;
    ConsoleError (lit "[/chat] Error:") ].

Definition doneEnding : list Effect :=
  [Write (bareEvent done); FlushHeaders].

(** No event of the stretch is terminal. *)
Definition openEvents (tr : list Effect) : Prop :=
  forallb (fun ev => negb (isTerminal ev)) (events tr) = true.

(** A string without whitespace at either end. *)
Definition tidy (s : jsstring) : bool :=
  match s with
  | [] => true
  | c :: _ => negb (isWhiteSpace c) && negb (isWhiteSpace (last s c))
  end.

(** ASCII upper-casing, the inverse direction of [lowerUnit]. *)
Definition upperUnit (c : Z) : Z :=
  if (97 <=? c) && (c <=? 122) then c - 32 else c.

(** The string that the [URL] constructor is given for a link. *)
Definition linkText (url : option jsstring) : jsstring :=
  match url with Some u => u | None => lit "undefined" end.

(** The world in which the search is announced. *)
Definition searching (env : Env) (safeQuery : jsstring) (k : nat)
           (raw : jsstring) : World :=
  {| trace :=
       trace (decided env safeQuery k raw)
       ++ [ Write (textEvent reasoning (lit "Searching the web" ++ ellipsis));
            FlushHeaders ];
     tick := 3 + k |}.

(** The events of a request answered with the help of the search. *)
Definition toolAnswer (safeQuery answer : jsstring)
           (searchData : SearchResponse) (duration : Z) : list StreamEvent :=
  [ textEvent reasoning (lit "Received: " ++ dq ++ safeQuery ++ dq);
    textEvent reasoning (lit "Deciding if tool needed...");
    textEvent reasoning (lit "Tool call required for fresh data.");
    textEvent reasoning (lit "Searching the web" ++ ellipsis);
    toolCallEvent safeQuery searchData;
    textEvent reasoning (lit "Refining answer...");
    textEvent response
      (if truthy answer then answer else lit "(no answer generated)");
    textEvent reasoning (lit "Completed in " ++ ofZ duration ++ lit "ms");
    bareEvent done ].

(** A stretch without events. *)
Definition silent (tr : list Effect) : Prop := events tr = [].

(** A process in mock mode whose completion service always answers
    [true]. *)
Definition mockEnv : Env :=
  {| WEB_SEARCH_MODE := None;
     SEARCH_API_KEY := None;
     postOutcome := fun _ => inr {| candidateText := Some (lit "true") |};
     getOutcome := fun _ => inl err503;
     clock := fun n => 1700000000000 + 40 * Z.of_nat n;
     hostnameOf := simpleHostname;
     toLocaleString := ofZ;
     isoDay := isoDayUTC |}.

(** The fixed response of mock mode. *)
Definition mockResponse (text : jsstring) : SearchResponse :=
  {| query := text; totalResults := 3; results := mockResults;
     summary := None |}.

(** The decision call does not complete: from tick 2 on, no number of
    transient failures below the budget is followed by an answer with a
    text. *)
Definition decisionFails (env : Env) : Prop :=
  forall k answer, ~ completion env 2 k answer.

(** A search service that answers without results but reports a total. *)
Definition noHits : SearchData :=
  {| organic_results := Some []; total_results := Some 12 |}.

Definition emptyEnv : Env :=
  {| WEB_SEARCH_MODE := Some (lit "live");
     SEARCH_API_KEY := Some (lit "secret");
     postOutcome := fun _ => inr {| candidateText := Some (lit "true") |};
     getOutcome := fun _ => inr noHits;
     clock := fun n => 1700000000000 + 40 * Z.of_nat n;
     hostnameOf := simpleHostname;
     toLocaleString := ofZ;
     isoDay := isoDayUTC |}.

(** Live mode with a credential, and a completion service that always
    answers [false]. *)
Definition declineEnv : Env :=
  {| WEB_SEARCH_MODE := Some (lit "live");
     SEARCH_API_KEY := Some (lit "secret");
     postOutcome := fun _ => inr {| candidateText := Some (lit "false") |};
     getOutcome := fun _ => inr fourHits;
     clock := fun n => 1700000000000 + 40 * Z.of_nat n;
     hostnameOf := simpleHostname;
     toLocaleString := ofZ;
     isoDay := isoDayUTC |}.

(** The answer of the search service holds no result. *)
Definition withoutResults (data : SearchData) : Prop :=
  organic_results data = None \/ organic_results data = Some [].

(* ===================================================================== *)
(** * Facts about strings *)
(* ===================================================================== *)

Lemma eqb_eq (a b : jsstring) : JS.eqb a b = true <-> a = b.
Proof.
  revert b. induction a as [|x a IH]; intros [|y b]; simpl; split;
    try congruence; try reflexivity.
  - intros H. apply andb_true_iff in H as [Hxy Hab].
    apply Z.eqb_eq in Hxy. apply IH in Hab. congruence.
  - intros H. injection H as -> ->. rewrite Z.eqb_refl. simpl.
    now apply IH.
Qed.

Lemma startsWith_spec (s p : jsstring) :
  startsWith s p = true <-> exists post, s = p ++ post.
Proof.
  revert s. induction p as [|x p IH]; intros s; simpl.
  - split; [intros _; now exists s | now destruct s].
  - destruct s as [|y s]; simpl.
    + split; [discriminate | intros [post H]; discriminate].
    + rewrite andb_true_iff, Z.eqb_eq, IH. split.
      * intros [-> [post ->]]. now exists post.
      * intros [post H]. injection H as -> ->. split; [reflexivity|].
        now exists post.
Qed.

Lemma includes_nil (p : jsstring) : includes [] p = startsWith [] p.
Proof. simpl. apply orb_false_r. Qed.

Lemma includes_cons (c : Z) (s p : jsstring) :
  includes (c :: s) p = startsWith (c :: s) p || includes s p.
Proof. reflexivity. Qed.

Lemma includes_spec (s p : jsstring) :
  includes s p = true <-> occursIn p s.
Proof.
  unfold occursIn. induction s as [|c s IH].
  - rewrite includes_nil, startsWith_spec. split.
    + intros [post H]. now exists [], post.
    + intros [pre [post H]]. destruct pre as [|? ?]; [|discriminate].
      now exists post.
  - rewrite includes_cons, orb_true_iff, startsWith_spec, IH. split.
    + intros [[post H] | [pre [post H]]].
      * now exists [], post.
      * exists (c :: pre), post. simpl. now rewrite H.
    + intros [[|d pre] [post H]].
      * left. now exists post.
      * right. injection H as -> ->. now exists pre, post.
Qed.

Lemma bool_false_iff (b : bool) (P : Prop) :
  (b = true <-> P) -> (b = false <-> ~ P).
Proof.
  intros H. destruct b; split; intros H'; try congruence.
  - exfalso. apply H'. now apply H.
  - intros HP. apply H in HP. discriminate.
Qed.

(* ===================================================================== *)
(** * The decision parser *)
(* ===================================================================== *)

Lemma parseDecision_true_iff (raw : jsstring) :
  parseDecision raw = true <->
  normalized raw = lit "true" \/ occursIn (lit "yes") (normalized raw).
Proof.
  unfold parseDecision. fold (normalized raw).
  now rewrite orb_true_iff, eqb_eq, includes_spec.
Qed.

(** C3: [parseDecision] answers true exactly when the trimmed, lowercased
    input is the word true or has yes as a substring, and false on every
    other input; padded mixed-case True is accepted, the word false and the
    empty string are not. *)
Theorem parseDecision_spec :
  forall raw : jsstring,
    (parseDecision raw = true <->
       normalized raw = lit "true" \/ occursIn (lit "yes") (normalized raw))
    /\ (parseDecision raw = false <->
          ~ (normalized raw = lit "true"
             \/ occursIn (lit "yes") (normalized raw)))
    /\ parseDecision (lit "  True ") = true
    /\ parseDecision (lit "false") = false
    /\ parseDecision [] = false.
Proof.
  intros raw. split; [apply parseDecision_true_iff|].
  split; [apply bool_false_iff, parseDecision_true_iff|].
  repeat split; reflexivity.
Qed.

(** The answer of the parser on a negated reply: normalising it gives
    [no, i don't think so], which is not the word true and in which yes does
    not occur. *)
Lemma parseDecision_negated_reply_false :
  parseDecision noThinkSo = false.
Proof. reflexivity. Qed.

(** C4, as the code has it: on the reply [No, I don't think so] the parser
    answers false, since the normalised reply is neither the word true nor
    contains yes. *)
Theorem parseDecision_negated_reply :
  parseDecision noThinkSo = false
  /\ normalized noThinkSo = lit "no, i don't think so"
  /\ JS.eqb (normalized noThinkSo) (lit "true") = false
  /\ includes (normalized noThinkSo) (lit "yes") = false.
Proof. repeat split; reflexivity. Qed.

(* ===================================================================== *)
(** * The tail pattern of [truncateSnippet] *)
(* ===================================================================== *)

Lemma matchHere_wsTail (s : jsstring) :
  matchHere wsTail s =
  match s with
  | c :: t => if isWhiteSpace c then many isWhiteSpace wordToEnd t else None
  | [] => None
  end.
Proof. destruct s; reflexivity. Qed.

(** Whatever a repetition returns, its continuation returned. *)
Lemma many_result p k s r :
  many p k s = Some r -> exists s', k s' = Some r.
Proof.
  induction s as [|c t IH]; simpl.
  - intros H. now exists [].
  - destruct (p c).
    + destruct (many p k t) eqn:E.
      * intros H. injection H as ->. now apply IH.
      * intros H. now exists (c :: t).
    + intros H. now exists (c :: t).
Qed.

Lemma atEnd_result s r : atEnd s = Some r -> r = [].
Proof. destruct s; simpl; congruence. Qed.

(** A match of the tail pattern always runs to the end of the input. *)
Lemma wsTail_consumes_all s r : matchHere wsTail s = Some r -> r = [].
Proof.
  rewrite matchHere_wsTail. destruct s as [|c t]; [discriminate|].
  destruct (isWhiteSpace c); [|discriminate].
  intros H. apply many_result in H as [s1 H].
  apply many_result in H as [s2 H]. now apply atEnd_result in H.
Qed.

Lemma wsTail_starts_with_ws s r :
  matchHere wsTail s = Some r ->
  exists w t, s = w :: t /\ isWhiteSpace w = true.
Proof.
  rewrite matchHere_wsTail. destruct s as [|c t]; [discriminate|].
  destruct (isWhiteSpace c) eqn:E; [|discriminate].
  intros _. now exists c, t.
Qed.

Lemma wordToEnd_word s :
  forallb nonWs s = true -> wordToEnd s = Some [].
Proof.
  unfold wordToEnd. induction s as [|c t IH]; simpl; [reflexivity|].
  intros H. apply andb_true_iff in H as [Hc Ht]. rewrite Hc.
  now rewrite (IH Ht).
Qed.

Lemma spaces_then_word s :
  forallb nonWs s = true -> many isWhiteSpace wordToEnd s = Some [].
Proof.
  intros H. destruct s as [|c t]; simpl.
  - reflexivity.
  - pose proof H as H'. simpl in H'. apply andb_true_iff in H' as [Hc _].
    unfold nonWs in Hc. apply negb_true_iff in Hc. rewrite Hc.
    now apply wordToEnd_word.
Qed.

Lemma strip_cons c t :
  strip (c :: t) =
  match matchHere wsTail (c :: t) with
  | Some rest => rest
  | None => c :: strip t
  end.
Proof. reflexivity. Qed.

(** What is left after the replacement is a prefix of the input. *)
Lemma strip_prefix s : exists rest, s = strip s ++ rest.
Proof.
  induction s as [|c t [rest IH]]; [now exists []|].
  rewrite strip_cons. destruct (matchHere wsTail (c :: t)) eqn:E.
  - apply wsTail_consumes_all in E. subst. now exists (c :: t).
  - exists rest. simpl. now rewrite <- IH.
Qed.

Lemma strip_length s : (List.length (strip s) <= List.length s)%nat.
Proof.
  destruct (strip_prefix s) as [rest H].
  rewrite H at 2. rewrite length_app. lia.
Qed.

(** Without whitespace there is no match and nothing is removed. *)
Lemma strip_no_ws s : forallb nonWs s = true -> strip s = s.
Proof.
  induction s as [|c t IH]; [reflexivity|].
  simpl forallb. intros H. apply andb_true_iff in H as [Hc Ht].
  rewrite strip_cons, matchHere_wsTail.
  unfold nonWs in Hc. apply negb_true_iff in Hc. rewrite Hc.
  now rewrite (IH Ht).
Qed.

(** With whitespace, the cut falls right before a whitespace character. *)
Lemma strip_before_ws s :
  forallb nonWs s = false ->
  exists w rest, s = strip s ++ w :: rest /\ isWhiteSpace w = true.
Proof.
  induction s as [|c t IH]; [discriminate|].
  intros H. rewrite strip_cons.
  destruct (matchHere wsTail (c :: t)) eqn:E.
  - pose proof (wsTail_consumes_all _ _ E). subst.
    destruct (wsTail_starts_with_ws _ _ E) as [w [t' [Heq Hw]]].
    injection Heq as -> ->. now exists w, t'.
  - assert (Ht : forallb nonWs t = false).
    { destruct (forallb nonWs t) eqn:Ht; [|reflexivity]. exfalso.
      rewrite matchHere_wsTail in E.
      simpl in H. rewrite Ht, andb_true_r in H.
      unfold nonWs in H. apply negb_false_iff in H. rewrite H in E.
      rewrite (spaces_then_word _ Ht) in E. discriminate. }
    destruct (IH Ht) as [w [rest [Heq Hw]]].
    exists w, rest. split; [|exact Hw]. simpl. now rewrite <- Heq.
Qed.

(** The cut never leaves whitespace at the end of what is kept. *)
Lemma strip_ends_word s :
  strip s = [] \/ exists r c, strip s = r ++ [c] /\ isWhiteSpace c = false.
Proof.
  induction s as [|c t IH]; [now left|].
  rewrite strip_cons. destruct (matchHere wsTail (c :: t)) eqn:E.
  - left. now apply wsTail_consumes_all in E.
  - right. destruct IH as [Hnil | [r [x [Hr Hx]]]].
    + exists [], c. rewrite Hnil. split; [reflexivity|].
      destruct (isWhiteSpace c) eqn:Hc; [exfalso|reflexivity].
      rewrite matchHere_wsTail, Hc in E.
      destruct t as [|d t'].
      * discriminate.
      * rewrite strip_cons in Hnil.
        destruct (matchHere wsTail (d :: t')) eqn:E'; [|discriminate].
        rewrite matchHere_wsTail in E'.
        destruct (isWhiteSpace d) eqn:Hd; [|discriminate].
        simpl in E. rewrite Hd, E' in E. discriminate.
    + exists (c :: r), x. rewrite Hr. now split.
Qed.

(* ===================================================================== *)
(** * Snippet truncation *)
(* ===================================================================== *)

Lemma truncateSnippet_short (s : jsstring) (c : nat) :
  (List.length s <= c)%nat -> truncateSnippet s c = s.
Proof.
  intros H. unfold truncateSnippet.
  now rewrite (proj2 (Nat.leb_le _ _) H).
Qed.

Lemma truncateSnippet_cut (s : jsstring) (c : nat) :
  (c < List.length s)%nat ->
  truncateSnippet s c = strip (firstn c s) ++ lit "...".
Proof.
  intros H. unfold truncateSnippet.
  now rewrite (proj2 (Nat.leb_gt _ _) H).
Qed.

Lemma kept_is_prefix (s : jsstring) (c : nat) :
  exists rest, s = strip (firstn c s) ++ rest.
Proof.
  destruct (strip_prefix (firstn c s)) as [r Hr].
  exists (r ++ skipn c s).
  rewrite app_assoc, <- Hr. symmetry. apply firstn_skipn.
Qed.

Lemma kept_length (s : jsstring) (c : nat) :
  (List.length (strip (firstn c s)) <= c)%nat.
Proof.
  pose proof (strip_length (firstn c s)).
  pose proof (firstn_le_length c s). lia.
Qed.

(** C10: an input no longer than the cap is returned as it is; a longer one
    gives a prefix of the input followed by three dots, at most cap + 3
    characters in all, and the prefix is the whole first cap characters
    when there is no whitespace among them. *)
Theorem truncateSnippet_spec :
  forall (s : jsstring) (c : nat),
    ((List.length s <= c)%nat -> truncateSnippet s c = s)
    /\ ((c < List.length s)%nat ->
        exists p rest,
          truncateSnippet s c = p ++ lit "..."
          /\ s = p ++ rest
          /\ (List.length (truncateSnippet s c) <= c + 3)%nat
          /\ (forallb nonWs (firstn c s) = true -> p = firstn c s)).
Proof.
  intros s c. split; [apply truncateSnippet_short|].
  intros H. destruct (kept_is_prefix s c) as [rest Hrest].
  exists (strip (firstn c s)), rest.
  rewrite (truncateSnippet_cut _ _ H). repeat split.
  - exact Hrest.
  - rewrite length_app. pose proof (kept_length s c).
    change (List.length (lit "...")) with 3%nat. lia.
  - apply strip_no_ws.
Qed.

(** C5, as the code has it: for an input longer than the 300-character cap
    the result is a prefix of the input followed by three dots, the prefix
    being at most 300 characters long and the result at most 303.  When the
    first 300 characters hold whitespace, the prefix is shorter than the
    cap, is followed in the input by a whitespace character and does not
    itself end in whitespace.  When they hold none, the prefix is the first
    300 characters, whatever follows them in the input. *)
Theorem truncateSnippet_long :
  forall text : jsstring,
    (snippetCap < List.length text)%nat ->
    exists p rest,
      truncateSnippet text snippetCap = p ++ lit "..."
      /\ text = p ++ rest
      /\ (List.length p <= snippetCap)%nat
      /\ (List.length (truncateSnippet text snippetCap) <= snippetCap + 3)%nat
      /\ (forallb nonWs (firstn snippetCap text) = false ->
          (List.length p < snippetCap)%nat
          /\ (exists w rest', text = p ++ w :: rest' /\ isWhiteSpace w = true)
          /\ (p = [] \/ exists r c, p = r ++ [c] /\ isWhiteSpace c = false))
      /\ (forallb nonWs (firstn snippetCap text) = true ->
          p = firstn snippetCap text
          /\ List.length p = snippetCap
          /\ rest = skipn snippetCap text).
Proof.
  intros text H. destruct (kept_is_prefix text snippetCap) as [rest Hrest].
  exists (strip (firstn snippetCap text)), rest.
  rewrite (truncateSnippet_cut _ _ H).
  split; [reflexivity|]. split; [exact Hrest|].
  split; [apply kept_length|].
  split.
  { rewrite length_app. pose proof (kept_length text snippetCap).
    change (List.length (lit "...")) with 3%nat. lia. }
  split.
  - intros Hws. destruct (strip_before_ws _ Hws) as [w [r [Heq Hw]]].
    split; [|split].
    + pose proof (firstn_le_length snippetCap text) as Hl.
      rewrite Heq, length_app in Hl. cbn [List.length] in Hl. lia.
    + exists w, (r ++ skipn snippetCap text). split; [|exact Hw].
      rewrite <- (firstn_skipn snippetCap text) at 1.
      rewrite Heq at 1. now rewrite <- app_assoc.
    + apply strip_ends_word.
  - intros Hnone. pose proof (strip_no_ws _ Hnone) as Hp.
    split; [exact Hp|]. split.
    + rewrite Hp, length_firstn. lia.
    + rewrite Hp in Hrest.
      rewrite <- (firstn_skipn snippetCap text) in Hrest at 1.
      now apply app_inv_head in Hrest.
Qed.

(** [truncateSnippet_long] at [twoWords], where the first word is kept
    whole, and at [longWord], a single word, which is cut after 300
    characters. *)
Lemma truncateSnippet_long_witness :
  (exists p rest,
      truncateSnippet twoWords snippetCap = p ++ lit "..."
      /\ twoWords = p ++ rest
      /\ (List.length p <= snippetCap)%nat
      /\ (List.length (truncateSnippet twoWords snippetCap)
          <= snippetCap + 3)%nat
      /\ (forallb nonWs (firstn snippetCap twoWords) = false ->
          (List.length p < snippetCap)%nat
          /\ (exists w rest',
                 twoWords = p ++ w :: rest' /\ isWhiteSpace w = true)
          /\ (p = [] \/ exists r c, p = r ++ [c] /\ isWhiteSpace c = false))
      /\ (forallb nonWs (firstn snippetCap twoWords) = true ->
          p = firstn snippetCap twoWords
          /\ List.length p = snippetCap
          /\ rest = skipn snippetCap twoWords))
  /\ forallb nonWs (firstn snippetCap twoWords) = false
  /\ (exists p rest,
         truncateSnippet longWord snippetCap = p ++ lit "..."
         /\ longWord = p ++ rest
         /\ (List.length p <= snippetCap)%nat
         /\ (List.length (truncateSnippet longWord snippetCap)
             <= snippetCap + 3)%nat
         /\ (forallb nonWs (firstn snippetCap longWord) = false ->
             (List.length p < snippetCap)%nat
             /\ (exists w rest',
                    longWord = p ++ w :: rest' /\ isWhiteSpace w = true)
             /\ (p = [] \/ exists r c, p = r ++ [c] /\ isWhiteSpace c = false))
         /\ (forallb nonWs (firstn snippetCap longWord) = true ->
             p = firstn snippetCap longWord
             /\ List.length p = snippetCap
             /\ rest = skipn snippetCap longWord))
  /\ forallb nonWs (firstn snippetCap longWord) = true.
Proof.
  assert (H2 : (snippetCap < List.length twoWords)%nat)
    by (vm_compute; lia).
  assert (H1 : (snippetCap < List.length longWord)%nat)
    by (vm_compute; lia).
  split; [exact (truncateSnippet_long twoWords H2)|].
  split; [vm_compute; reflexivity|].
  split; [exact (truncateSnippet_long longWord H1)|].
  vm_compute; reflexivity.
Defined.

(** The cap is exceeded and a word is split: a 301-character word comes
    back as its first 300 characters and three dots, 303 characters; and
    with a whitespace at position 299 the result still has 302. *)
Lemma truncateSnippet_exceeds_cap :
  truncateSnippet longWord snippetCap = repeat 97 300 ++ lit "..."
  /\ List.length (truncateSnippet longWord snippetCap) = 303%nat
  /\ forallb nonWs longWord = true
  /\ truncateSnippet twoWords snippetCap = repeat 97 299 ++ lit "..."
  /\ List.length (truncateSnippet twoWords snippetCap) = 302%nat.
Proof. repeat split; vm_compute; reflexivity. Qed.

(* ===================================================================== *)
(** * The retry wrapper *)
(* ===================================================================== *)

Section Retry.

Context {T : Type}.
Variable call : Effect.
Variable outcome : nat -> JsError + T.

Lemma failsTransiently_step n errs k :
  failsTransiently outcome n errs (S k) ->
  failsTransiently outcome (n + 1) (fun j => errs (S j)) k.
Proof.
  intros H j Hj. destruct (H (S j) ltac:(lia)) as [Ho Ht].
  split; [|exact Ht]. rewrite <- Ho. f_equal. lia.
Qed.

Lemma retryLoop_fail_step (w : World) (left i : nat) (lastErr : Thrown)
      (e : JsError) :
  outcome (tick w) = inl e -> isTransient e = true ->
  retryLoop (operation call outcome) (S left) i lastErr w =
  retryLoop (operation call outcome) left (S i) (TError e)
            (after w [call; Sleep (backoffDelay i)] 1).
Proof.
  intros Ho Ht. simpl. unfold tryCatch, operation, ask, rejected.
  rewrite Ho, Ht. unfold bind, sleep, emit, after. simpl.
  rewrite <- app_assoc. simpl. do 3 f_equal. lia.
Qed.

Lemma retryLoop_ok_step (w : World) (left i : nat) (lastErr : Thrown)
      (v : T) :
  outcome (tick w) = inr v ->
  retryLoop (operation call outcome) (S left) i lastErr w = (after w [call] 1, inr v).
Proof.
  intros Ho. simpl. unfold tryCatch, operation, ask, rejected.
  rewrite Ho. unfold after. do 3 f_equal. lia.
Qed.

Lemma retryLoop_fatal_step (w : World) (left i : nat) (lastErr : Thrown)
      (e : JsError) :
  outcome (tick w) = inl e -> isTransient e = false ->
  retryLoop (operation call outcome) (S left) i lastErr w = (after w [call] 1, inl (TError e)).
Proof.
  intros Ho Ht. simpl. unfold tryCatch, operation, ask, rejected.
  rewrite Ho, Ht. unfold throw, after. do 3 f_equal. lia.
Qed.

Lemma rounds_succ (i k : nat) :
  rounds call i (S k) = call :: Sleep (backoffDelay i) :: rounds call (S i) k.
Proof. reflexivity. Qed.

(** [k] transient failures take the loop [k] rounds forward. *)
Lemma retryLoop_rounds (k : nat) :
  forall (left i : nat) (lastErr : Thrown) (errs : nat -> JsError) (w : World),
    failsTransiently outcome (tick w) errs k ->
    retryLoop (operation call outcome) (k + left) i lastErr w =
    retryLoop (operation call outcome) left (i + k) (lastOf errs k lastErr)
              (after w (rounds call i k) k).
Proof.
  induction k as [|k IH]; intros left i lastErr errs w H.
  - simpl. unfold after, rounds. simpl.
    rewrite app_nil_r, !Nat.add_0_r. now destruct w.
  - destruct (H 0%nat ltac:(lia)) as [Ho Ht]. rewrite Nat.add_0_r in Ho.
    change (S k + left)%nat with (S (k + left)).
    rewrite (retryLoop_fail_step _ _ _ _ _ Ho Ht).
    pose proof (failsTransiently_step _ _ _ H) as Hw.
    rewrite (IH left (S i) (TError (errs 0%nat)) _
                (after w [call; Sleep (backoffDelay i)] 1) Hw).
    rewrite rounds_succ. unfold after. simpl.
    rewrite <- app_assoc. simpl.
    replace (i + S k)%nat with (S i + k)%nat by lia.
    replace (tick w + 1 + k)%nat with (tick w + S k)%nat by lia.
    f_equal. f_equal. now destruct k.
Qed.

End Retry.

Lemma sleeps_app (a b : list Effect) : sleeps (a ++ b) = sleeps a ++ sleeps b.
Proof.
  induction a as [|e a IH]; [reflexivity|].
  destruct e; simpl; now rewrite IH.
Qed.

Lemma sleeps_rounds (call : Effect) (i k : nat) :
  sleeps [call] = [] ->
  sleeps (rounds call i k) = map backoffDelay (seq i k).
Proof.
  intros Hc. revert i. induction k as [|k IH]; intros i; [reflexivity|].
  rewrite rounds_succ. cbn [seq map]. rewrite <- (IH (S i)).
  change (call :: Sleep (backoffDelay i) :: rounds call (S i) k)
    with ([call] ++ Sleep (backoffDelay i) :: rounds call (S i) k).
  now rewrite sleeps_app, Hc.
Qed.

Lemma after_after (w : World) (a b : list Effect) (n m : nat) :
  after (after w a n) b m = after w (a ++ b) (n + m).
Proof.
  unfold after. simpl. now rewrite app_assoc, Nat.add_assoc.
Qed.

Lemma isTransient_spelled_out (e : JsError) :
  isTransient e = true <-> serverErrorOrAborted e.
Proof.
  unfold isTransient, serverErrorOrAborted. rewrite orb_true_iff. split.
  - intros [H | H].
    + left. destruct (errResponse e) as [r|]; [|discriminate]. now exists r.
    + right. destruct (code e) as [c|]; [|discriminate].
      apply eqb_eq in H. now subst.
  - intros [[r [-> H]] | ->].
    + now left.
    + right. now apply eqb_eq.
Qed.

(** C6, as the code has it: a failure is transient exactly when the error
    has a response with a status of 500 or more or the code
    [ECONNABORTED].  With the default budget of 3, an operation that fails
    transiently [k < 3] times and then succeeds gives its value after [k]
    rounds of a call and a delay of [1000 * 2^i] ms and one last call; one
    that fails transiently on all three attempts sleeps after each of them,
    1000, 2000 and 4000 ms, and then has the error of the third attempt
    thrown; and a failure that is not transient is thrown at once, the
    failing call being the last effect. *)
Theorem withRetry_default_budget :
  forall (T : Type) (call : Effect) (outcome : nat -> JsError + T)
         (errs : nat -> JsError) (k : nat) (w : World),
    (forall j, (j < k)%nat ->
       outcome (tick w + j)%nat = inl (errs j)
       /\ serverErrorOrAborted (errs j)) ->
    sleeps [call] = [] ->
    (forall v : T,
        (k < defaultRetries)%nat -> outcome (tick w + k)%nat = inr v ->
        withRetry (operation call outcome) defaultRetries w
        = (after w (rounds call 0 k ++ [call]) (k + 1)%nat, inr v)
        /\ sleeps (rounds call 0 k ++ [call])
           = map (fun i => 1000 * 2 ^ Z.of_nat i) (seq 0 k))
    /\ (k = defaultRetries ->
        withRetry (operation call outcome) defaultRetries w
        = (after w (rounds call 0 defaultRetries) defaultRetries,
           inl (TError (errs 2%nat)))
        /\ sleeps (rounds call 0 defaultRetries) = [1000; 2000; 4000])
    /\ (forall e : JsError,
           (k < defaultRetries)%nat -> outcome (tick w + k)%nat = inl e ->
           (forall r, errResponse e = Some r -> (status r <? 500) = true) ->
           (forall c, code e = Some c ->
                      JS.eqb c (lit "ECONNABORTED") = false) ->
           withRetry (operation call outcome) defaultRetries w
           = (after w (rounds call 0 k ++ [call]) (k + 1)%nat, inl (TError e))
           /\ sleeps (rounds call 0 k ++ [call])
              = map (fun i => 1000 * 2 ^ Z.of_nat i) (seq 0 k)).
Proof.
  intros T call outcome errs k w H0 Hc.
  assert (H : failsTransiently outcome (tick w) errs k).
  { intros j Hj. destruct (H0 j Hj) as [Ho Ht]. split; [exact Ho|].
    now apply isTransient_spelled_out. }
  assert (Hs : sleeps (rounds call 0 k ++ [call])
               = map (fun i => 1000 * 2 ^ Z.of_nat i) (seq 0 k)).
  { rewrite sleeps_app, Hc, app_nil_r. now apply sleeps_rounds. }
  unfold withRetry. split; [|split].
  - intros v Hk Ho. split; [|exact Hs].
    replace defaultRetries with (k + S (defaultRetries - 1 - k))%nat by lia.
    rewrite (retryLoop_rounds _ _ _ _ _ _ errs _ H).
    rewrite (retryLoop_ok_step call outcome (after w (rounds call 0 k) k)
             _ _ _ v Ho).
    now rewrite after_after.
  - intros ->. split.
    + change defaultRetries with (defaultRetries + 0)%nat at 1.
      now rewrite (retryLoop_rounds _ _ _ _ _ _ errs _ H).
    + now rewrite (sleeps_rounds call 0 defaultRetries Hc).
  - intros e Hk Ho Hstatus Hcode. split; [|exact Hs].
    assert (Ht : isTransient e = false).
    { unfold isTransient. apply orb_false_iff. split.
      - destruct (errResponse e) as [r|]; [|reflexivity].
        specialize (Hstatus r eq_refl). apply Z.ltb_lt in Hstatus.
        apply Z.leb_gt. exact Hstatus.
      - destruct (code e) as [c|]; [|reflexivity]. now apply Hcode. }
    replace defaultRetries with (k + S (defaultRetries - 1 - k))%nat by lia.
    rewrite (retryLoop_rounds _ _ _ _ _ _ errs _ H).
    rewrite (retryLoop_fatal_step call outcome (after w (rounds call 0 k) k)
             _ _ _ e Ho Ht).
    now rewrite after_after.
Qed.

(** The three cases: two transient failures (a 503 and a timeout) and a
    success give three calls with delays of 1000 and 2000 ms between them;
    three 503 answers give three calls, each followed by its delay, and
    the 503 thrown; a 503 followed by a refused connection gives two calls
    with one delay between them and the refusal thrown. *)
Lemma withRetry_default_budget_witness :
  withRetry (operation (Post []) twoFailures) defaultRetries initial
  = ({| trace := [Post []; Sleep 1000; Post []; Sleep 2000; Post []];
        tick := 3 |}, inr 7)
  /\ withRetry (operation (Post []) alwaysDown) defaultRetries initial
     = ({| trace := [Post []; Sleep 1000; Post []; Sleep 2000;
                     Post []; Sleep 4000];
           tick := 3 |}, inl (TError err503))
  /\ withRetry (operation (Post []) downThenRefused) defaultRetries initial
     = ({| trace := [Post []; Sleep 1000; Post []]; tick := 2 |},
        inl (TError errRefused)).
Proof.
  assert (H2 : forall j, (j < 2)%nat ->
             twoFailures (tick initial + j)%nat = inl (twoErrors j)
             /\ serverErrorOrAborted (twoErrors j)).
  { intros j Hj. destruct j as [|[|j]]; [| |lia].
    - split; [reflexivity|]. left. eexists. split; reflexivity.
    - split; [reflexivity|]. right. reflexivity. }
  assert (H3 : forall j, (j < 3)%nat ->
             alwaysDown (tick initial + j)%nat = inl (err503)
             /\ serverErrorOrAborted err503).
  { intros j Hj. split; [reflexivity|]. left. eexists. split; reflexivity. }
  assert (H1 : forall j, (j < 1)%nat ->
             downThenRefused (tick initial + j)%nat = inl (err503)
             /\ serverErrorOrAborted err503).
  { intros j Hj. destruct j as [|j]; [|lia].
    split; [reflexivity|]. left. eexists. split; reflexivity. }
  split; [|split].
  - destruct (withRetry_default_budget Z (Post []) twoFailures twoErrors 2
                initial H2 eq_refl) as [Hok _].
    destruct (Hok 7 ltac:(unfold defaultRetries; lia) eq_refl) as [Hrun _].
    exact Hrun.
  - destruct (withRetry_default_budget Z (Post []) alwaysDown
                (fun _ => err503) 3 initial H3 eq_refl) as [_ [Hall _]].
    destruct (Hall eq_refl) as [Hrun _]. exact Hrun.
  - destruct (withRetry_default_budget Z (Post []) downThenRefused
                (fun _ => err503) 1 initial H1 eq_refl) as [_ [_ Hfatal]].
    destruct (Hfatal errRefused ltac:(unfold defaultRetries; lia) eq_refl)
      as [Hrun _].
    + intros r Hr. discriminate.
    + intros c Hcd. injection Hcd as <-. reflexivity.
    + exact Hrun.
Defined.

(** A connection failure is not retried: an operation whose connection is
    refused once and which would succeed on a second attempt has the
    refusal thrown after a single call, without delay; and neither
    [ECONNREFUSED] nor [ECONNRESET] nor [ETIMEDOUT] counts as transient. *)
Lemma withRetry_connection_failure :
  withRetry (operation (Post []) refusedOnce) defaultRetries initial
  = ({| trace := [Post []]; tick := 1 |}, inl (TError errRefused))
  /\ refusedOnce 1%nat = inr 7
  /\ isTransient errRefused = false
  /\ isTransient errReset = false
  /\ isTransient errTimedOut = false.
Proof. repeat split. Qed.

(* ===================================================================== *)
(** * The search client *)
(* ===================================================================== *)

Lemma webSearch_mock (env : Env) (query safeQuery : jsstring) (w : World) :
  encodes query safeQuery ->
  JS.eqb (MODE env) (lit "mock") = true ->
  webSearch env query w
  = (w, inr {| query := query; totalResults := 3; results := mockResults;
               summary := None |}).
Proof.
  unfold encodes, webSearch. intros -> ->. reflexivity.
Qed.

Lemma webSearch_no_key (env : Env) (query safeQuery : jsstring) (w : World) :
  encodes query safeQuery ->
  liveWithoutKey env ->
  webSearch env query w
  = (w, inr (emptyResponse query (lit "Search API key missing."))).
Proof.
  unfold encodes, webSearch. intros -> [-> ->]. reflexivity.
Qed.

Lemma webSearch_failure (env : Env) (query safeQuery : jsstring) (w : World)
      (e : JsError) :
  encodes query safeQuery ->
  liveWithKey env ->
  getOutcome env (tick w) = inl e ->
  webSearch env query w
  = (after w [Get safeQuery;
              ConsoleError (lit "Search API Error: " ++ searchFailureLog e)] 1,
     inr (emptyResponse query (lit "Search failed: " ++ searchFailureText e))).
Proof.
  unfold encodes, webSearch. intros -> [-> ->] Ho.
  unfold tryCatch, bind, axiosGet, ask, rejected, emit, ret, after.
  cbn [negb]. rewrite Ho. cbn [trace tick].
  rewrite <- app_assoc. do 3 f_equal. lia.
Qed.

Lemma webSearch_success (env : Env) (query safeQuery : jsstring) (w : World)
      (data : SearchData) :
  encodes query safeQuery ->
  liveWithKey env ->
  getOutcome env (tick w) = inr data ->
  let total := match total_results data with Some n => n | None => 0 end in
  let rs := map (mapResult env)
                (firstn 10 (match organic_results data with
                            | Some l => l
                            | None => []
                            end)) in
  webSearch env query w
  = (after w [Get safeQuery] 1,
     inr {| query := query; totalResults := total; results := rs;
            summary := Some (synthSummary env total rs) |}).
Proof.
  unfold encodes, webSearch. intros -> [-> ->] Ho.
  unfold tryCatch, bind, axiosGet, ask, rejected, emit, ret, after.
  cbn [negb]. rewrite Ho. cbn. do 3 f_equal. lia.
Qed.

(** The search client returns for every query that can be encoded. *)
Lemma webSearch_returns (env : Env) (query safeQuery : jsstring) (w : World) :
  encodes query safeQuery ->
  exists w' r, webSearch env query w = (w', inr r).
Proof.
  intros He.
  destruct (JS.eqb (MODE env) (lit "mock")) eqn:Hm.
  - eexists _, _. now apply (webSearch_mock env query safeQuery).
  - destruct (truthy (joined (SEARCH_API_KEY env))) eqn:Hk.
    + destruct (getOutcome env (tick w)) as [e|data] eqn:Ho.
      * eexists _, _. apply (webSearch_failure env query safeQuery w e);
          [exact He | now split | exact Ho].
      * eexists _, _. apply (webSearch_success env query safeQuery w data);
          [exact He | now split | exact Ho].
    + eexists _, _. apply (webSearch_no_key env query safeQuery);
        [exact He | now split].
Qed.

(** C7, at the query that breaks it: [encodeURIComponent] runs before the
    [try] block and raises a [URIError] on a surrogate that stands alone,
    so the search client throws, in every mode and whatever the services
    answer. *)
Theorem webSearch_throws_on_lone_surrogate :
  forall (env : Env) (w : World),
    URI.encodeURIComponent (trim loneSurrogate) = None
    /\ webSearch env loneSurrogate w = (w, inl (TError URI.uriError)).
Proof. intros env w. split; reflexivity. Qed.

(** C9, as the code has it: in live mode, a successful answer with at
    least one result gives the summary [Found N results. Top sources: ...]
    where N is the reported total, rendered by [toLocaleString], and the
    sources listed are those of the first three results, in order and with
    repetitions. *)
Theorem webSearch_summary :
  forall (env : Env) (query safeQuery : jsstring) (w : World)
         (data : SearchData) (r : RawResult) (rest : list RawResult),
    encodes query safeQuery ->
    liveWithKey env ->
    getOutcome env (tick w) = inr data ->
    organic_results data = Some (r :: rest) ->
    exists resp,
      webSearch env query w = (after w [Get safeQuery] 1, inr resp)
      /\ results resp = map (mapResult env) (firstn 10 (r :: rest))
      /\ totalResults resp
         = match total_results data with Some n => n | None => 0 end
      /\ summary resp
         = Some (lit "Found " ++ toLocaleString env (totalResults resp)
                 ++ lit " results. Top sources: "
                 ++ join (lit ", ") (sourcesOf (firstn 3 (results resp)))
                 ++ lit ".").
Proof.
  intros env query safeQuery w data r rest He Hl Ho Hr.
  eexists. split.
  - rewrite (webSearch_success env query safeQuery w data He Hl Ho).
    reflexivity.
  - rewrite Hr. cbn [results totalResults summary].
    repeat split.
Qed.

(* ===================================================================== *)
(** * The summary on concrete results *)
(* ===================================================================== *)

(** [webSearch_summary] on the four results of [fourHits]. *)
Lemma webSearch_summary_witness :
  exists resp,
    webSearch liveEnv weather initial
    = (after initial [Get (lit "current%20weather%20in%20Paris")] 1, inr resp)
    /\ results resp
       = map (mapResult liveEnv)
             (firstn 10 [hit "https://a.com/1"; hit "https://a.com/2";
                         hit "https://b.org/"; hit "https://c.net/x"])
    /\ totalResults resp = 4
    /\ summary resp
       = Some (lit "Found " ++ toLocaleString liveEnv (totalResults resp)
               ++ lit " results. Top sources: "
               ++ join (lit ", ") (sourcesOf (firstn 3 (results resp)))
               ++ lit ".").
Proof.
  exact (webSearch_summary liveEnv weather
           (lit "current%20weather%20in%20Paris") initial fourHits
           (hit "https://a.com/1")
           [hit "https://a.com/2"; hit "https://b.org/"; hit "https://c.net/x"]
           eq_refl (conj eq_refl eq_refl) eq_refl eq_refl).
Defined.

(** The summary repeats a source and leaves out the third distinct one:
    with results from a.com, a.com, b.org and c.net it lists a.com twice
    and b.org, while the first three distinct sources are a.com, b.org and
    c.net. *)
Lemma webSearch_summary_repeats_sources :
  exists resp,
    snd (webSearch liveEnv weather initial) = inr resp
    /\ summary resp
       = Some (lit "Found 4 results. Top sources: a.com, a.com, b.org.")
    /\ firstn 3 (distinct [] (sourcesOf (results resp)))
       = [lit "a.com"; lit "b.org"; lit "c.net"]
    /\ includes (joined (summary resp)) (lit "c.net") = false.
Proof. eexists. repeat split; vm_compute; reflexivity. Qed.

(* ===================================================================== *)
(** * Blank queries *)
(* ===================================================================== *)

Lemma trimStart_blank (s : jsstring) :
  forallb isWhiteSpace s = true -> trimStart s = [].
Proof.
  induction s as [|c t IH]; [reflexivity|].
  simpl. intros H. apply andb_true_iff in H as [-> Ht]. now apply IH.
Qed.

Lemma trim_blank (s : jsstring) :
  forallb isWhiteSpace s = true -> trim s = [].
Proof.
  intros H. unfold trim, trimEnd. now rewrite (trimStart_blank s H).
Qed.

Lemma trimStart_nonblank (s : jsstring) :
  forallb isWhiteSpace s = false ->
  exists c t, trimStart s = c :: t /\ isWhiteSpace c = false.
Proof.
  induction s as [|c t IH]; [discriminate|].
  simpl. destruct (isWhiteSpace c) eqn:Hc.
  - simpl. exact IH.
  - intros _. now exists c, t.
Qed.

Lemma trimStart_keeps_last (l : jsstring) (c : Z) :
  isWhiteSpace c = false -> truthy (trimStart (l ++ [c])) = true.
Proof.
  intros Hc. induction l as [|x l IH]; simpl.
  - now rewrite Hc.
  - now destruct (isWhiteSpace x).
Qed.

Lemma truthy_rev (s : jsstring) : truthy (rev s) = truthy s.
Proof.
  destruct s as [|c t]; [reflexivity|]. simpl.
  now destruct (rev t).
Qed.

Lemma trim_nonblank (s : jsstring) :
  forallb isWhiteSpace s = false -> truthy (trim s) = true.
Proof.
  intros H. destruct (trimStart_nonblank s H) as [c [t [Heq Hc]]].
  unfold trim, trimEnd. rewrite Heq, truthy_rev. simpl rev.
  now apply trimStart_keeps_last.
Qed.

(** C8: a request whose query is missing, not a string, empty or made of
    whitespace only gets the headers, one error event, status 400 and the
    end of the stream, and nothing else: no call to the completion service
    or to the search service, and no oracle consulted. *)
Theorem chat_refuses_blank :
  forall (env : Env) (req : Request),
    blankQuery (requestQuery req) ->
    chat env req initial = ({| trace := refusal; tick := 0 |}, inr tt)
    /\ events refusal
       = [textEvent error (lit "Valid 'query' string required")]
    /\ count isClientCall refusal = 0%nat
    /\ count isEnd refusal = 1%nat.
Proof.
  intros env req H. split; [|repeat split].
  unfold chat. destruct (requestQuery req) as [| | b | n | s |];
    try reflexivity.
  simpl in H. rewrite (trim_blank s H). reflexivity.
Qed.

(** A query of whitespace only is refused. *)
Lemma chat_refuses_blank_witness :
  chat liveEnv spaces initial = ({| trace := refusal; tick := 0 |}, inr tt)
  /\ events refusal
     = [textEvent error (lit "Valid 'query' string required")]
  /\ count isClientCall refusal = 0%nat
  /\ count isEnd refusal = 1%nat.
Proof. exact (chat_refuses_blank liveEnv spaces eq_refl). Defined.

(* ===================================================================== *)
(** * The completion client *)
(* ===================================================================== *)

Lemma withRetry_ok {T} (call : Effect) (outcome : nat -> JsError + T)
      (errs : nat -> JsError) (k n : nat) (w : World) (v : T) :
  failsTransiently outcome (tick w) errs k ->
  (k < n)%nat ->
  outcome (tick w + k)%nat = inr v ->
  withRetry (operation call outcome) n w
  = ({| trace := trace w ++ rounds call 0 k ++ [call];
        tick := S (tick w + k) |}, inr v).
Proof.
  intros H Hk Ho. unfold withRetry.
  replace n with (k + S (n - 1 - k))%nat by lia.
  rewrite (retryLoop_rounds _ _ _ _ _ _ errs _ H).
  rewrite (retryLoop_ok_step call outcome (after w (rounds call 0 k) k)
             _ _ _ v Ho).
  rewrite after_after. unfold after. do 2 f_equal. lia.
Qed.

Lemma callGemini_completes (env : Env) (p : jsstring) (w : World)
      (k : nat) (answer : jsstring) :
  completion env (tick w) k answer ->
  callGemini env p w
  = ({| trace := trace w ++ rounds (Post p) 0 k ++ [Post p];
        tick := S (tick w + k) |}, inr answer).
Proof.
  intros [errs [t [Hf [Hk [Ho [Ht ->]]]]]].
  unfold callGemini, tryCatch, bind, axiosPost.
  change (ask (Post p) (rejected (postOutcome env)))
    with (operation (Post p) (postOutcome env)).
  rewrite (withRetry_ok _ _ errs k _ w _ Hf Hk Ho).
  cbn [candidateText]. now rewrite Ht.
Qed.

(** A retry loop that returns a value has seen some transient failures,
    fewer than its budget, and then a success. *)
Lemma retryLoop_returns_inv {T} (call : Effect) (outcome : nat -> JsError + T)
      (left : nat) :
  forall (i : nat) (lastErr : Thrown) (w w' : World) (v : T),
    retryLoop (operation call outcome) left i lastErr w = (w', inr v) ->
    exists k errs,
      (k < left)%nat
      /\ failsTransiently outcome (tick w) errs k
      /\ outcome (tick w + k)%nat = inr v.
Proof.
  induction left as [|left IH]; intros i lastErr w w' v H.
  - discriminate.
  - destruct (outcome (tick w)) as [e|v0] eqn:Ho.
    + destruct (isTransient e) eqn:Ht.
      * rewrite (retryLoop_fail_step call outcome w left i lastErr e Ho Ht)
          in H.
        apply IH in H as [k [errs [Hk [Hf Hv]]]]. cbn [after tick] in *.
        exists (S k), (fun j => match j with O => e | S j' => errs j' end).
        split; [lia|]. split.
        -- intros [|j] Hj.
           ++ rewrite Nat.add_0_r. now split.
           ++ destruct (Hf j ltac:(lia)) as [Hfo Hft].
              split; [|exact Hft]. rewrite <- Hfo. f_equal. lia.
        -- rewrite <- Hv. f_equal. lia.
      * rewrite (retryLoop_fatal_step call outcome w left i lastErr e Ho Ht)
          in H.
        discriminate.
    + rewrite (retryLoop_ok_step call outcome w left i lastErr v0 Ho) in H.
      injection H as _ <-.
      exists 0%nat, (fun _ => mkError []).
      split; [lia|]. split; [intros j Hj; lia|].
      now rewrite Nat.add_0_r.
Qed.

(** The completion client returns exactly when the service completes. *)
Lemma callGemini_returns_iff (env : Env) (p : jsstring) (w : World)
      (answer : jsstring) :
  (exists w', callGemini env p w = (w', inr answer))
  <-> exists k, completion env (tick w) k answer.
Proof.
  split.
  - intros [w' H]. unfold callGemini, tryCatch, bind, withRetry in H.
    change (axiosPost env p) with (operation (Post p) (postOutcome env)) in H.
    destruct (retryLoop (operation (Post p) (postOutcome env))
                defaultRetries 0 TUndefined w) as [w1 [e|resp]] eqn:Hr.
    + destruct e as [e|]; discriminate.
    + apply retryLoop_returns_inv in Hr as [k [errs [Hk [Hf Hv]]]].
      destruct resp as [[t|]]; cbn [candidateText] in H.
      * destruct (truthy t) eqn:Ht.
        -- injection H as _ <-. exists k, errs, t.
           split; [exact Hf|]. split; [exact Hk|]. split; [exact Hv|].
           split; [exact Ht | reflexivity].
        -- discriminate.
      * discriminate.
  - intros [k H]. eexists. exact (callGemini_completes env p w k answer H).
Qed.

Lemma events_app (a b : list Effect) : events (a ++ b) = events a ++ events b.
Proof.
  induction a as [|e a IH]; [reflexivity|].
  destruct e; simpl; now rewrite IH.
Qed.

Lemma events_rounds (p : jsstring) (i k : nat) : events (rounds (Post p) i k) = [].
Proof.
  revert i. induction k as [|k IH]; intros i; [reflexivity|].
  rewrite rounds_succ. simpl. apply IH.
Qed.

(* ===================================================================== *)
(** * What every request leaves on the response *)
(* ===================================================================== *)

Lemma count_app {A} (p : A -> bool) (a b : list A) :
  count p (a ++ b) = (count p a + count p b)%nat.
Proof. unfold count. now rewrite filter_app, length_app. Qed.

Lemma ends_app (a b : list Effect) : ends (a ++ b) = (ends a + ends b)%nat.
Proof. apply count_app. Qed.

Lemma toolCalls_app (a b : list Effect) :
  toolCalls (a ++ b) = (toolCalls a + toolCalls b)%nat.
Proof. unfold toolCalls. rewrite events_app. apply count_app. Qed.

Lemma Calm_app (n k : nat) (a b : list Effect) :
  Calm n a -> Calm k b -> Calm (n + k) (a ++ b).
Proof.
  intros [Ha Ha'] [Hb Hb']. split.
  - rewrite ends_app. lia.
  - rewrite toolCalls_app. lia.
Qed.

Lemma Calm_nil (n : nat) : Calm n [].
Proof. split; [reflexivity | apply Nat.le_0_l]. Qed.

Lemma Traces_ret {A} (a : A) (n : nat) : Traces (ret a) (Calm n).
Proof.
  intros w. exists []. split; [now rewrite app_nil_r | apply Calm_nil].
Qed.

Lemma Traces_throw {A} (e : Thrown) (n : nat) : Traces (@throw A e) (Calm n).
Proof.
  intros w. exists []. split; [now rewrite app_nil_r | apply Calm_nil].
Qed.

Lemma Traces_emit (e : Effect) (n : nat) :
  Calm n [e] -> Traces (emit e) (Calm n).
Proof. intros H w. now exists [e]. Qed.

Lemma Traces_ask {A} (e : Effect) (o : nat -> Thrown + A) (n : nat) :
  Calm n [e] -> Traces (ask e o) (Calm n).
Proof. intros H w. now exists [e]. Qed.

Lemma Traces_bind {A B} (m : M A) (f : A -> M B) (n k : nat) :
  Traces m (Calm n) -> (forall a, Traces (f a) (Calm k)) ->
  Traces (bind m f) (Calm (n + k)).
Proof.
  intros Hm Hf w. unfold bind.
  destruct (Hm w) as [t1 [E1 C1]]. destruct (m w) as [w1 [e|a]].
  - exists t1. split; [exact E1|].
    destruct C1 as [C1 C1']. split; [exact C1 | lia].
  - simpl in E1. destruct (Hf a w1) as [t2 [E2 C2]].
    exists (t1 ++ t2). split.
    + now rewrite E2, E1, app_assoc.
    + now apply Calm_app.
Qed.

Lemma Traces_bind_quiet {A B} (m : M A) (f : A -> M B) (n : nat) :
  Traces m (Calm 0) -> (forall a, Traces (f a) (Calm n)) ->
  Traces (bind m f) (Calm n).
Proof. intros Hm Hf. exact (Traces_bind m f 0 n Hm Hf). Qed.

Lemma Traces_tryCatch {A} (body : M A) (h : Thrown -> M A) (n : nat) :
  Traces body (Calm 0) -> (forall e, Traces (h e) (Calm n)) ->
  Traces (tryCatch body h) (Calm n).
Proof.
  intros Hm Hh w. unfold tryCatch.
  destruct (Hm w) as [t1 [E1 C1]]. destruct (body w) as [w1 [e|a]].
  - simpl in E1. destruct (Hh e w1) as [t2 [E2 C2]].
    exists (t1 ++ t2). split.
    + now rewrite E2, E1, app_assoc.
    + exact (Calm_app 0 n _ _ C1 C2).
  - exists t1. split; [exact E1|].
    destruct C1 as [C1 C1']. split; [exact C1 | lia].
Qed.

Lemma Traces_streamEvent (ev : StreamEvent) :
  Traces (streamEvent ev) (Calm (if isToolCall ev then 1 else 0)).
Proof.
  intros w. exists [Write ev; FlushHeaders]. split.
  - unfold streamEvent, bind, emit. simpl. now rewrite <- app_assoc.
  - unfold Calm, ends, toolCalls, count. simpl.
    destruct (isToolCall ev); simpl; split; auto.
Qed.

Lemma Traces_text (t : EventType) (c : jsstring) :
  isToolCall (textEvent t c) = false ->
  Traces (streamEvent (textEvent t c)) (Calm 0).
Proof.
  intros H. pose proof (Traces_streamEvent (textEvent t c)) as Hs.
  now rewrite H in Hs.
Qed.

Ltac calm_leaf :=
  first
    [ apply Traces_ret
    | apply Traces_throw
    | apply Traces_text; reflexivity
    | apply Traces_emit; now split
    | apply Traces_ask; now split ].

Lemma Traces_dateNow (env : Env) : Traces (dateNow env) (Calm 0).
Proof. unfold dateNow. calm_leaf. Qed.

Lemma Traces_retryLoop {T} (fn : M T) :
  Traces fn (Calm 0) ->
  forall (left i : nat) (lastErr : Thrown),
    Traces (retryLoop fn left i lastErr) (Calm 0).
Proof.
  intros Hfn left. induction left as [|left IH]; intros i lastErr; simpl.
  - calm_leaf.
  - apply Traces_tryCatch; [exact Hfn|].
    intros [e|]; [|calm_leaf].
    destruct (isTransient e); [|calm_leaf].
    apply Traces_bind_quiet; [unfold sleep; calm_leaf|].
    intros _. apply IH.
Qed.

Lemma Traces_callGemini (env : Env) (p : jsstring) :
  Traces (callGemini env p) (Calm 0).
Proof.
  unfold callGemini. apply Traces_tryCatch.
  - apply Traces_bind_quiet.
    + apply Traces_retryLoop. unfold axiosPost. calm_leaf.
    + intros resp. destruct (candidateText resp) as [t|]; [|calm_leaf].
      destruct (truthy t); calm_leaf.
  - intros [e|]; [|calm_leaf].
    apply Traces_bind_quiet; [calm_leaf | intros _; calm_leaf].
Qed.

Lemma Traces_webSearch (env : Env) (query : jsstring) :
  Traces (webSearch env query) (Calm 0).
Proof.
  unfold webSearch.
  destruct (URI.encodeURIComponent (trim query)) as [safeQuery|];
    [|calm_leaf].
  destruct (JS.eqb (MODE env) (lit "mock")); [calm_leaf|].
  destruct (negb (truthy (joined (SEARCH_API_KEY env)))); [calm_leaf|].
  apply Traces_tryCatch.
  - apply Traces_bind_quiet; [unfold axiosGet; calm_leaf|].
    intros resp. calm_leaf.
  - intros [e|]; [|calm_leaf].
    apply Traces_bind_quiet; [calm_leaf | intros _; calm_leaf].
Qed.

Lemma Traces_pipeline (env : Env) (safeQuery : jsstring) (startTime : Z) :
  Traces (pipeline env safeQuery startTime) (Calm 1).
Proof.
  unfold pipeline.
  apply Traces_bind_quiet; [unfold acknowledge; calm_leaf|]. intros _.
  apply Traces_bind_quiet.
  { unfold decide. apply Traces_bind_quiet; [apply Traces_dateNow|].
    intros t. apply Traces_bind_quiet; [calm_leaf|]. intros _.
    apply Traces_bind_quiet; [apply Traces_callGemini|]. intros raw.
    apply Traces_bind_quiet; [|intros _; calm_leaf].
    destruct (parseDecision raw); calm_leaf. }
  intros needSearch.
  apply (Traces_bind _ _ 1 0).
  { unfold toolCall. destruct needSearch; [|calm_leaf].
    apply Traces_bind_quiet; [calm_leaf|]. intros _.
    apply Traces_bind_quiet; [apply Traces_webSearch|]. intros searchData.
    apply (Traces_bind _ _ 1 0); [|intros _; calm_leaf].
    apply (Traces_streamEvent (toolCallEvent safeQuery searchData)). }
  intros prompt.
  apply Traces_bind_quiet.
  { unfold synthesize. apply Traces_bind_quiet; [apply Traces_dateNow|].
    intros today. apply Traces_bind_quiet; [calm_leaf|]. intros _.
    apply Traces_bind_quiet; [apply Traces_callGemini|]. intros answer.
    destruct (truthy answer); calm_leaf. }
  intros _. unfold finalize.
  apply Traces_bind_quiet; [apply Traces_dateNow|]. intros finish.
  apply Traces_bind_quiet; [calm_leaf|]. intros _.
  apply (Traces_streamEvent (bareEvent done)).
Qed.

Lemma Traces_onError (err : Thrown) : Traces (onError err) (Calm 0).
Proof.
  unfold onError. apply Traces_bind_quiet; [|intros _; calm_leaf].
  destruct err; calm_leaf.
Qed.

Lemma guarded_returns (m : M unit) (w : World) :
  snd (tryFinally (tryCatch m onError) (emit End) w) = inr tt.
Proof.
  unfold tryFinally, tryCatch, emit.
  destruct (m w) as [w1 [e|[]]]; reflexivity.
Qed.

Lemma guarded_trace (m : M unit) (n : nat) :
  Traces m (Calm n) ->
  forall w, exists tr,
    trace (fst (tryFinally (tryCatch m onError) (emit End) w))
    = trace w ++ tr ++ [End]
    /\ Calm n tr.
Proof.
  intros Hm w.
  assert (Hc : Traces (tryCatch m onError) (Calm n)).
  { intros w0. unfold tryCatch. destruct (Hm w0) as [t1 [E1 C1]].
    destruct (m w0) as [w1 [e|a]].
    - simpl in E1. destruct (Traces_onError e w1) as [t2 [E2 C2]].
      exists (t1 ++ t2). split; [now rewrite E2, E1, app_assoc|].
      rewrite <- (Nat.add_0_r n). now apply Calm_app.
    - now exists t1. }
  destruct (Hc w) as [tr [E C]]. exists tr. split; [|exact C].
  unfold tryFinally, emit.
  destruct (tryCatch m onError w) as [w1 r]. simpl in *.
  now rewrite E, app_assoc.
Qed.

(* ===================================================================== *)
(** * Tool calls, decision by decision *)
(* ===================================================================== *)

Lemma guarded_ext (m m' : M unit) (w w' : World) :
  m w = m' w' -> guarded m w = guarded m' w'.
Proof.
  intros H. unfold guarded, tryFinally, tryCatch. now rewrite H.
Qed.

Lemma toolCalls_rounds (p : jsstring) (i k : nat) :
  toolCalls (rounds (Post p) i k) = 0%nat.
Proof. unfold toolCalls. now rewrite events_rounds. Qed.

Lemma ends_rounds (p : jsstring) (i k : nat) : ends (rounds (Post p) i k) = 0%nat.
Proof.
  revert i. induction k as [|k IH]; intros i; [reflexivity|].
  rewrite rounds_succ. unfold ends, count in *. simpl. apply IH.
Qed.

Lemma decided_calm (env : Env) (safeQuery : jsstring) (k : nat)
      (raw : jsstring) :
  Calm 0 (trace (decided env safeQuery k raw)).
Proof.
  unfold decided. cbn [trace]. split.
  - rewrite !ends_app, ends_rounds. reflexivity.
  - rewrite !toolCalls_app, toolCalls_rounds.
    destruct (parseDecision raw); apply Nat.le_refl.
Qed.

(** A valid request whose decision call returns reaches [decided], and
    continues with the remaining steps. *)
Lemma chat_decided (env : Env) (req : Request) (query raw : jsstring)
      (k : nat) :
  requestQuery req = VString query ->
  forallb isWhiteSpace query = false ->
  completion env 2 k raw ->
  chat env req initial
  = guarded (afterDecision env (trim query) (clock env 0%nat)
               (parseDecision raw))
            (decided env (trim query) k raw).
Proof.
  intros Hq Hnb H1. unfold chat.
  rewrite Hq, (trim_nonblank query Hnb). cbn [negb].
  cbv beta iota zeta delta [bind emit ask dateNow initial trace tick].
  fold (guarded (pipeline env (trim query) (clock env 0%nat))).
  apply guarded_ext.
  unfold pipeline. fold (afterDecision env (trim query) (clock env 0%nat)).
  cbv beta iota zeta delta
    [bind emit ask dateNow streamEvent acknowledge decide ret trace tick].
  rewrite (callGemini_completes env _ {| trace := _; tick := 2 |} k raw H1).
  cbv beta iota zeta delta [trace tick]. unfold decided.
  f_equal. f_equal. cbn [app].
  rewrite <- !app_assoc. reflexivity.
Qed.

Lemma Traces_wrapUp env safeQuery startTime needSearch prompt :
  Traces (wrapUp env safeQuery startTime needSearch prompt) (Calm 0).
Proof.
  unfold wrapUp. apply Traces_bind_quiet.
  { unfold synthesize. apply Traces_bind_quiet; [apply Traces_dateNow|].
    intros today. apply Traces_bind_quiet; [calm_leaf|]. intros _.
    apply Traces_bind_quiet; [apply Traces_callGemini|]. intros answer.
    destruct (truthy answer); calm_leaf. }
  intros _. unfold finalize.
  apply Traces_bind_quiet; [apply Traces_dateNow|]. intros finish.
  apply Traces_bind_quiet; [calm_leaf|]. intros _.
  apply (Traces_streamEvent (bareEvent done)).
Qed.

Lemma Traces_afterDecision_false env safeQuery startTime :
  Traces (afterDecision env safeQuery startTime false) (Calm 0).
Proof.
  unfold afterDecision. apply Traces_bind_quiet; [simpl; calm_leaf|].
  intros prompt. apply Traces_wrapUp.
Qed.

Lemma toolCalls_guarded (m : M unit) (w : World) :
  Traces m (Calm 0) ->
  toolCalls (trace (fst (guarded m w))) = toolCalls (trace w).
Proof.
  intros Hm. destruct (guarded_trace m 0 Hm w) as [tr [E [_ C]]].
  unfold guarded. rewrite E, !toolCalls_app.
  change (toolCalls [End]) with 0%nat. lia.
Qed.

(** No tool call when the decision is false. *)
Lemma chat_decision_false (env : Env) (req : Request) (query raw : jsstring)
      (k : nat) :
  requestQuery req = VString query ->
  forallb isWhiteSpace query = false ->
  completion env 2 k raw ->
  parseDecision raw = false ->
  toolCalls (trace (fst (chat env req initial))) = 0%nat.
Proof.
  intros Hq Hnb H1 Hd.
  rewrite (chat_decided env req query raw k Hq Hnb H1), Hd.
  rewrite toolCalls_guarded by apply Traces_afterDecision_false.
  destruct (decided_calm env (trim query) k raw) as [_ C]. lia.
Qed.

(** Step 3 when the search client returns. *)
Lemma toolCall_run (env : Env) (safeQuery sq : jsstring) (w : World) :
  encodes safeQuery sq ->
  exists tr n searchData,
    toolCall env safeQuery true w
    = ({| trace :=
            trace w
            ++ [Write (textEvent reasoning
                         (lit "Searching the web" ++ ellipsis));
                FlushHeaders]
            ++ tr
            ++ [Write (toolCallEvent safeQuery searchData); FlushHeaders];
          tick := n |},
       inr (formatForLLM env searchData))
    /\ Calm 0 tr.
Proof.
  intros He. unfold toolCall.
  cbv beta iota zeta delta [bind emit streamEvent ret trace tick].
  set (w1 := {| trace := _; tick := _ |}).
  destruct (webSearch_returns env safeQuery sq w1 He) as [w2 [sd Hrun]].
  destruct (Traces_webSearch env safeQuery w1) as [tr [E C]].
  rewrite Hrun in *. cbn [fst] in E.
  exists tr, (tick w2), sd. split; [|exact C].
  f_equal. destruct w2 as [t2 n2]. cbn [trace tick] in *. subst t2.
  f_equal. unfold w1. cbn [trace]. now rewrite <- !app_assoc.
Qed.

(** Exactly one tool call when the decision is true and the query can be
    encoded. *)
Lemma chat_decision_true (env : Env) (req : Request) (query raw sq : jsstring)
      (k : nat) :
  requestQuery req = VString query ->
  forallb isWhiteSpace query = false ->
  completion env 2 k raw ->
  parseDecision raw = true ->
  encodes (trim query) sq ->
  toolCalls (trace (fst (chat env req initial))) = 1%nat.
Proof.
  intros Hq Hnb H1 Hd He.
  rewrite (chat_decided env req query raw k Hq Hnb H1), Hd.
  destruct (toolCall_run env (trim query) sq
              (decided env (trim query) k raw) He)
    as [tr [n [sd [Hrun C]]]].
  match type of Hrun with
  | _ = (?w3, _) =>
      rewrite (guarded_ext _
                 (wrapUp env (trim query) (clock env 0%nat) true
                    (formatForLLM env sd)) _ w3)
  end.
  2:{ unfold afterDecision, bind. rewrite Hrun. reflexivity. }
  rewrite toolCalls_guarded by apply Traces_wrapUp.
  cbn [trace]. rewrite !toolCalls_app.
  destruct (decided_calm env (trim query) k raw) as [_ C0].
  destruct C as [_ C].
  change (toolCalls [Write (toolCallEvent (trim query) sd); FlushHeaders])
    with 1%nat.
  change (toolCalls
            [Write (textEvent reasoning (lit "Searching the web" ++ ellipsis));
             FlushHeaders]) with 0%nat.
  lia.
Qed.

(** When the decision is true and the query cannot be encoded, the search
    client throws and the request ends with an error event, without a tool
    call. *)
Lemma chat_decision_true_unencodable (env : Env) (req : Request)
      (query raw : jsstring) (k : nat) :
  requestQuery req = VString query ->
  forallb isWhiteSpace query = false ->
  completion env 2 k raw ->
  parseDecision raw = true ->
  URI.encodeURIComponent (trim (trim query)) = None ->
  trace (fst (chat env req initial))
  = trace (decided env (trim query) k raw)
    ++ [ Write (textEvent reasoning (lit "Searching the web" ++ ellipsis));
         FlushHeaders;
         Write (textEvent error (lit "Agent error: URI malformed"));
         FlushHeaders;
         ConsoleError (lit "[/chat] Error:");
         End ]
  /\ toolCalls (trace (fst (chat env req initial))) = 0%nat.
Proof.
  intros Hq Hnb H1 Hd He.
  assert (Ht : trace (fst (chat env req initial))
    = trace (decided env (trim query) k raw)
      ++ [ Write (textEvent reasoning (lit "Searching the web" ++ ellipsis));
           FlushHeaders;
           Write (textEvent error (lit "Agent error: URI malformed"));
           FlushHeaders;
           ConsoleError (lit "[/chat] Error:");
           End ]).
  { rewrite (chat_decided env req query raw k Hq Hnb H1), Hd.
    unfold guarded, afterDecision, toolCall, webSearch. rewrite He.
    cbv beta iota zeta delta
      [bind emit streamEvent ret throw tryFinally tryCatch onError
       trace tick fst].
    rewrite <- !app_assoc. reflexivity. }
  split; [exact Ht|]. rewrite Ht, toolCalls_app.
  destruct (decided_calm env (trim query) k raw) as [_ C0].
  change (toolCalls _) with 0%nat at 2. lia.
Qed.

(* ===================================================================== *)
(** * The stream, request by request *)
(* ===================================================================== *)

(** Every request ends the stream exactly once, as its last effect, and
    writes at most one tool-call event; the handler itself never throws. *)
Lemma chat_closes_once (env : Env) (req : Request) :
  snd (chat env req initial) = inr tt
  /\ (exists tr,
         trace (fst (chat env req initial)) = tr ++ [End]
         /\ ends tr = 0%nat
         /\ (toolCalls tr <= 1)%nat).
Proof.
  assert (Hrefuse :
    forall m : M unit,
      m = (emit (SetHeader (lit "Content-Type") (lit "text/event-stream")) ;;;
           emit (SetHeader (lit "Cache-Control")
                   (lit "no-cache, no-transform")) ;;;
           emit (SetHeader (lit "Connection") (lit "keep-alive")) ;;;
           emit FlushHeaders ;;;
           streamEvent
             (textEvent error (lit "Valid 'query' string required")) ;;;
           emit (Status 400) ;;; emit End) ->
      snd (m initial) = inr tt
      /\ (exists tr,
             trace (fst (m initial)) = tr ++ [End]
             /\ ends tr = 0%nat /\ (toolCalls tr <= 1)%nat)).
  { intros m ->. split; [reflexivity|].
    exists (headers
            ++ [Write (textEvent error (lit "Valid 'query' string required"));
                FlushHeaders; Status 400]).
    repeat split. unfold toolCalls, count. simpl. lia. }
  unfold chat.
  destruct (requestQuery req) as [| | b | n | query |];
    try (apply Hrefuse; reflexivity).
  destruct (negb (truthy (trim query))); [apply Hrefuse; reflexivity|].
  match goal with
  | |- context [?m initial] =>
      change (m initial)
        with (guarded (pipeline env (trim query) (clock env 0%nat))
                {| trace := headers ++ [Now]; tick := 1 |})
  end.
  split; [apply guarded_returns|].
  destruct (guarded_trace _ 1 (Traces_pipeline env (trim query)
                                 (clock env 0%nat))
              {| trace := headers ++ [Now]; tick := 1 |})
    as [tr [E [C C']]].
  exists (headers ++ [Now] ++ tr). split; [|split].
  - unfold guarded. rewrite E. cbn [trace]. now rewrite <- !app_assoc.
  - rewrite !ends_app, C. reflexivity.
  - rewrite !toolCalls_app.
    change (toolCalls headers) with 0%nat.
    change (toolCalls [Now]) with 0%nat. lia.
Qed.

(** C1: every request ends the stream exactly once, as its last effect,
    and writes at most one tool-call event.  A true decision does not
    always give one: on a query that is a surrogate standing alone, with a
    completion service that answers true, the search client throws before
    the tool-call event and the stream carries four reasoning events and an
    error. *)
Theorem chat_stream_discipline :
  forall (env : Env) (req : Request),
    (snd (chat env req initial) = inr tt
     /\ ends (trace (fst (chat env req initial))) = 1%nat
     /\ (exists tr, trace (fst (chat env req initial)) = tr ++ [End])
     /\ (toolCalls (trace (fst (chat env req initial))) <= 1)%nat)
    /\ (parseDecision (lit "true") = true
        /\ map type
             (events (trace (fst (chat liveEnv (askFor loneSurrogate)
                                    initial))))
           = [reasoning; reasoning; reasoning; reasoning; error]
        /\ toolCalls (trace (fst (chat liveEnv (askFor loneSurrogate)
                                    initial))) = 0%nat).
Proof.
  intros env req. split.
  - destruct (chat_closes_once env req) as [Hr [tr [E [He Ht]]]].
    split; [exact Hr|]. rewrite E. split; [|split].
    + rewrite ends_app, He. reflexivity.
    + now exists tr.
    + rewrite toolCalls_app. change (toolCalls [End]) with 0%nat. lia.
  - repeat split; vm_compute; reflexivity.
Qed.

(* ===================================================================== *)
(** * The retry wrapper, for any budget *)
(* ===================================================================== *)

Lemma failsTransiently_cons {T} (outcome : nat -> JsError + T) (n : nat)
      (e : JsError) (errs : nat -> JsError) (k : nat) :
  outcome n = inl e -> isTransient e = true ->
  failsTransiently outcome (n + 1) errs k ->
  failsTransiently outcome n (consErr e errs) (S k).
Proof.
  intros Ho Ht H [|j] Hj.
  - rewrite Nat.add_0_r. now split.
  - destruct (H j ltac:(lia)) as [Hjo Hjt]. split; [|exact Hjt].
    simpl. rewrite <- Hjo. f_equal. lia.
Qed.

Lemma lastOf_cons (e : JsError) (errs : nat -> JsError) (k : nat)
      (before : Thrown) :
  lastOf (consErr e errs) (S k) before = lastOf errs k (TError e).
Proof. now destruct k. Qed.

Lemma retryLoop_shape {T} (call : Effect) (outcome : nat -> JsError + T)
      (left : nat) :
  forall (i : nat) (lastErr : Thrown) (w : World),
    retryShape call outcome left i lastErr w
      (retryLoop (operation call outcome) left i lastErr w).
Proof.
  induction left as [|left IH]; intros i lastErr w.
  - exists 0%nat, (fun _ => mkError []). split; [intros j Hj; lia|].
    right. split; [reflexivity|]. simpl. unfold throw, after, rounds.
    simpl. rewrite app_nil_r, Nat.add_0_r. now destruct w.
  - destruct (outcome (tick w)) as [e|v] eqn:Ho.
    + destruct (isTransient e) eqn:Ht.
      * rewrite (retryLoop_fail_step call outcome w left i lastErr e Ho Ht).
        destruct (IH (S i) (TError e)
                     (after w [call; Sleep (backoffDelay i)] 1))
          as [k [errs [Hf Hend]]].
        cbn [after tick trace] in Hf, Hend.
        exists (S k), (consErr e errs).
        split; [now apply failsTransiently_cons|].
        destruct Hend as [[Hk [Hrun Hlast]] | [Hk Hrun]].
        -- left. split; [lia|]. split.
           ++ rewrite Hrun, rounds_succ. f_equal.
              ** f_equal; [|lia]. rewrite <- !app_assoc. reflexivity.
              ** f_equal. lia.
           ++ intros e' He'. apply Hlast. rewrite <- He'. f_equal. lia.
        -- right. split; [lia|]. rewrite Hrun, rounds_succ, lastOf_cons.
           subst k. unfold after. cbn [trace tick]. f_equal. f_equal.
           ++ rewrite <- !app_assoc. reflexivity.
           ++ lia.
      * rewrite (retryLoop_fatal_step call outcome w left i lastErr e Ho Ht).
        exists 0%nat, (fun _ => mkError []). split; [intros j Hj; lia|].
        left. split; [lia|]. rewrite Nat.add_0_r. split.
        -- unfold after, rejected, rounds. rewrite Ho. simpl.
           f_equal. f_equal. lia.
        -- intros e' He'. congruence.
    + rewrite (retryLoop_ok_step call outcome w left i lastErr v Ho).
      exists 0%nat, (fun _ => mkError []). split; [intros j Hj; lia|].
      left. split; [lia|]. rewrite Nat.add_0_r. split.
      * unfold after, rejected, rounds. rewrite Ho. simpl.
        f_equal. f_equal. lia.
      * intros e' He'. congruence.
Qed.

(** X1: whatever the budget and whatever the operation answers, a run of
    [withRetry] is [k] failed rounds, each a call and the delay
    [1000 * 2^i] of its round, all on transient errors, and then either one
    more call whose outcome (a value, or an error that is not transient) is
    the result, with [k] below the budget, or nothing more, the budget
    being used up and the last error thrown. *)
Theorem withRetry_shape :
  forall (T : Type) (call : Effect) (outcome : nat -> JsError + T)
         (retries : nat) (w : World),
    retryShape call outcome retries 0 TUndefined w
      (withRetry (operation call outcome) retries w).
Proof. intros. apply retryLoop_shape. Qed.

(* ===================================================================== *)
(** * The completion client, call by call *)
(* ===================================================================== *)

Lemma rounds_zero (call : Effect) (i : nat) : rounds call i 0 = [].
Proof. reflexivity. Qed.

Lemma callGemini_run :
  forall (env : Env) (p : jsstring) (w : World),
    exists k log,
      (k <= defaultRetries)%nat
      /\ trace (fst (callGemini env p w))
         = trace w ++ rounds (Post p) 0 k ++ lastAttempt p k ++ log
      /\ tick (fst (callGemini env p w))
         = (tick w + k + List.length (lastAttempt p k))%nat
      /\ geminiEnding log (snd (callGemini env p w)).
Proof.
  intros env p w. unfold callGemini, tryCatch, bind, axiosPost.
  change (ask (Post p) (rejected (postOutcome env)))
    with (operation (Post p) (postOutcome env)).
  destruct (retryLoop_shape (Post p) (postOutcome env) defaultRetries 0
              TUndefined w) as [k [errs [Hf Hend]]].
  unfold withRetry.
  destruct Hend as [[Hk [Hrun Hlast]] | [Hk Hrun]]; rewrite Hrun.
  - assert (Hla : lastAttempt p k = [Post p]).
    { unfold lastAttempt. now rewrite (proj2 (Nat.ltb_lt _ _) Hk). }
    unfold rejected.
    destruct (postOutcome env (tick w + k)) as [e|resp] eqn:Ho.
    + exists k, [ConsoleError (orElse (upstreamMessage e) (message e))].
      split; [lia|]. rewrite Hla. unfold emit, throw. cbn [fst snd trace tick].
      split; [now rewrite <- !app_assoc|]. split; [simpl; lia|].
      right. now eexists.
    + destruct (candidateText resp) as [t|] eqn:Hc.
      * destruct (truthy t) eqn:Ht.
        -- exists k, []. split; [lia|]. rewrite Hla. unfold ret.
           cbn [fst snd trace tick]. rewrite app_nil_r.
           split; [reflexivity|]. split; [simpl; lia|].
           left. now eexists.
        -- exists k, [ConsoleError (lit "Invalid Gemini response format")].
           split; [lia|]. rewrite Hla. unfold emit, throw.
           cbn [fst snd trace tick orElse upstreamMessage mkError
                errResponse message truthy lit].
           split; [now rewrite <- !app_assoc|]. split; [simpl; lia|].
           right. now eexists.
      * exists k, [ConsoleError (lit "Invalid Gemini response format")].
        split; [lia|]. rewrite Hla. unfold emit, throw.
        cbn [fst snd trace tick].
        split; [now rewrite <- !app_assoc|]. split; [simpl; lia|].
        right. now eexists.
  - subst k. cbn [lastOf defaultRetries].
    exists defaultRetries,
      [ConsoleError (orElse (upstreamMessage (errs 2%nat))
                            (message (errs 2%nat)))].
    split; [lia|]. unfold emit, throw, after. cbn [fst snd trace tick].
    change (lastAttempt p defaultRetries) with (@nil Effect).
    split; [now rewrite <- !app_assoc|]. split; [simpl; lia|].
    right. now eexists.
Qed.

(** X3: a call of the completion client is at most three rounds of posting
    its prompt, with the delays of the retry wrapper between them; it ends
    either with a text and nothing logged, or with one line logged and a
    plain [Error] thrown whose message is that line after the words
    [LLM unavailable: ].  It never throws anything else, and its only
    effects are these posts, delays and the log line. *)
Theorem callGemini_effects :
  forall (env : Env) (p : jsstring) (w : World),
    exists k log,
      (k <= defaultRetries)%nat
      /\ trace (fst (callGemini env p w))
         = trace w ++ rounds (Post p) 0 k ++ lastAttempt p k ++ log
      /\ tick (fst (callGemini env p w))
         = (tick w + k + List.length (lastAttempt p k))%nat
      /\ geminiEnding log (snd (callGemini env p w)).
Proof. exact callGemini_run. Qed.

Lemma count_rounds_posts (p : jsstring) (i k : nat) :
  count isPost (rounds (Post p) i k) = k.
Proof.
  revert i. induction k as [|k IH]; intros i; [reflexivity|].
  rewrite rounds_succ. unfold count in *. simpl. now rewrite IH.
Qed.

Lemma slept_app (a b : list Effect) : slept (a ++ b) = slept a + slept b.
Proof.
  unfold slept. rewrite sleeps_app, fold_right_app.
  induction (sleeps a) as [|x l IH]; simpl; lia.
Qed.

Lemma slept_rounds_le (p : jsstring) (k : nat) :
  (k <= 3)%nat -> 0 <= slept (rounds (Post p) 0 k) <= 7000.
Proof.
  intros Hk. destruct k as [|[|[|[|k]]]]; try lia; vm_compute; split;
    discriminate.
Qed.

(** X4: one call of the completion client posts at most three times and
    sleeps at most 7000 ms in all. *)
Theorem callGemini_budget :
  forall (env : Env) (p : jsstring) (w : World),
    exists tr,
      trace (fst (callGemini env p w)) = trace w ++ tr
      /\ (count isPost tr <= 3)%nat
      /\ (slept tr <=? 7000) = true
      /\ (0 <=? slept tr) = true.
Proof.
  intros env p w.
  destruct (callGemini_run env p w) as [k [log [Hk [Ht [_ Hend]]]]].
  assert (Hlog : log = [] \/ exists m, log = [ConsoleError m]).
  { destruct Hend as [[a [_ ->]] | [m [_ ->]]]; [now left | right; now exists m]. }
  exists (rounds (Post p) 0 k ++ lastAttempt p k ++ log).
  split; [exact Ht|].
  assert (Hs : slept (lastAttempt p k ++ log) = 0).
  { rewrite slept_app. unfold lastAttempt.
    destruct (k <? defaultRetries)%nat; destruct Hlog as [-> | [m ->]];
      reflexivity. }
  assert (Hp : (count isPost (lastAttempt p k ++ log)
                = List.length (lastAttempt p k))%nat).
  { rewrite count_app. unfold lastAttempt.
    destruct (k <? defaultRetries)%nat; destruct Hlog as [-> | [m ->]];
      reflexivity. }
  pose proof (slept_rounds_le p k Hk) as [H0 H7].
  rewrite count_app, count_rounds_posts, Hp, slept_app, Hs, Z.add_0_r.
  split; [|split; [now apply Z.leb_le | now apply Z.leb_le]].
  unfold lastAttempt. destruct (k <? defaultRetries)%nat eqn:E.
  - apply Nat.ltb_lt in E. unfold defaultRetries in E. simpl. lia.
  - simpl. unfold defaultRetries in Hk. lia.
Qed.

(* ===================================================================== *)
(** * The search client, case by case *)
(* ===================================================================== *)

Lemma unreserved_not_surrogate (c : Z) :
  URI.unreserved c = true -> URI.isHigh c = false /\ URI.isLow c = false.
Proof.
  unfold URI.unreserved, URI.isHigh, URI.isLow. intros H.
  repeat (apply orb_true_iff in H as [H | H]);
    try (apply andb_true_iff in H as [H1 H2]);
    split; apply andb_false_iff; lia.
Qed.

Lemma high_not_low (c : Z) : URI.isHigh c = true -> URI.isLow c = false.
Proof. unfold URI.isHigh, URI.isLow. lia. Qed.

Lemma option_map_some {A B} (f : A -> B) (o : option A) :
  (exists b, option_map f o = Some b) <-> (exists a, o = Some a).
Proof.
  destruct o; simpl; split; intros [x H]; try discriminate; eauto.
Qed.

(** Encoding fails on the strings that are not well formed, and on no
    other. *)
Lemma encodeURIComponent_wellFormed (s : jsstring) :
  (exists r, URI.encodeURIComponent s = Some r) <-> isWellFormed s = true.
Proof.
  remember (List.length s) as n eqn:Hn. revert s Hn.
  induction n as [n IH] using lt_wf_ind. intros s Hn.
  destruct s as [|c t]; [simpl; split; eauto|].
  cbn [URI.encodeURIComponent isWellFormed].
  destruct (URI.unreserved c) eqn:Hu.
  - destruct (unreserved_not_surrogate c Hu) as [-> ->]. cbn [negb andb].
    rewrite option_map_some. apply (IH (List.length t)); simpl in *; lia.
  - destruct (URI.isLow c) eqn:Hl.
    + destruct (URI.isHigh c) eqn:Hh.
      * apply high_not_low in Hh. congruence.
      * simpl. split; [intros [r H]|]; discriminate.
    + destruct (URI.isHigh c) eqn:Hh.
      * destruct t as [|lo t']; [split; [intros [r H]|]; discriminate|].
        destruct (URI.isLow lo); cbn [andb].
        -- rewrite option_map_some.
           apply (IH (List.length t')); simpl in *; lia.
        -- split; [intros [r H]|]; discriminate.
      * cbn [negb andb]. rewrite option_map_some.
        apply (IH (List.length t)); simpl in *; lia.
Qed.

(** X5: the search client throws exactly on the queries whose trimmed form
    is not well-formed UTF-16; what it throws is the [URIError], before any
    effect.  On every other query it returns a response that repeats the
    query as it was given. *)
Theorem webSearch_throws_iff :
  forall (env : Env) (text : jsstring) (w : World),
    (isWellFormed (trim text) = false
     <-> webSearch env text w = (w, inl (TError URI.uriError)))
    /\ (isWellFormed (trim text) = true
        <-> exists w' resp,
              webSearch env text w = (w', inr resp)
              /\ query resp = text).
Proof.
  intros env text w.
  destruct (URI.encodeURIComponent (trim text)) as [sq|] eqn:He.
  - assert (Hwf : isWellFormed (trim text) = true).
    { apply encodeURIComponent_wellFormed. now exists sq. }
    assert (Hret : exists w' resp,
               webSearch env text w = (w', inr resp)
               /\ query resp = text).
    { destruct (JS.eqb (MODE env) (lit "mock")) eqn:Hm.
      - eexists _, _. split;
          [now apply (webSearch_mock env text sq) | reflexivity].
      - destruct (truthy (joined (SEARCH_API_KEY env))) eqn:Hk.
        + destruct (getOutcome env (tick w)) as [e|data] eqn:Ho.
          * eexists _, _. split;
              [apply (webSearch_failure env text sq w e);
                 [exact He | now split | exact Ho] | reflexivity].
          * eexists _, _. split;
              [apply (webSearch_success env text sq w data);
                 [exact He | now split | exact Ho] | reflexivity].
        + eexists _, _. split;
            [apply (webSearch_no_key env text sq);
               [exact He | now split] | reflexivity]. }
    rewrite Hwf. split; split; try discriminate; auto.
    intros H. destruct Hret as [w' [resp [Hr _]]]. congruence.
  - assert (Hwf : isWellFormed (trim text) = false).
    { destruct (isWellFormed (trim text)) eqn:E; [|reflexivity].
      apply encodeURIComponent_wellFormed in E as [r E]. congruence. }
    assert (Hthrow : webSearch env text w = (w, inl (TError URI.uriError))).
    { unfold webSearch. now rewrite He. }
    rewrite Hwf. split; split; try discriminate; auto.
    intros [w' [resp [Hr _]]]. congruence.
Qed.

Lemma truncateSnippet_length (s : jsstring) (c : nat) :
  (List.length (truncateSnippet s c) <= c + 3)%nat.
Proof.
  destruct (Nat.le_gt_cases (List.length s) c) as [H|H].
  - rewrite (truncateSnippet_short s c H). lia.
  - rewrite (truncateSnippet_cut s c H), length_app.
    pose proof (kept_length s c).
    change (List.length (lit "...")) with 3%nat. lia.
Qed.

Lemma orElse_truthy (a : option jsstring) (b : jsstring) :
  truthy b = true -> truthy (orElse a b) = true.
Proof.
  intros Hb. unfold orElse. destruct a as [s|]; [|exact Hb].
  destruct (truthy s) eqn:Hs; [exact Hs | exact Hb].
Qed.

Lemma mapResult_normal (env : Env) (r : RawResult) :
  normalResult (mapResult env r) = true.
Proof.
  unfold normalResult, mapResult. cbn [title link snippet source date].
  rewrite !orElse_truthy by (try reflexivity; now apply orElse_truthy).
  rewrite (proj2 (Nat.leb_le _ _) (truncateSnippet_length _ snippetCap)).
  destruct (r_date r) as [d|]; [|reflexivity].
  now destruct (truthy d) eqn:Hd; [rewrite Hd|].
Qed.

Lemma forallb_map_normal (env : Env) (l : list RawResult) :
  forallb normalResult (map (mapResult env) l) = true.
Proof.
  induction l as [|r l IH]; [reflexivity|].
  simpl. now rewrite mapResult_normal, IH.
Qed.

(** X6: whatever the mode and whatever the search service answers, a
    response of the search client has at most ten results, each with a
    title, a link and a source that are not empty, a snippet of at most
    303 characters and no empty date; and it repeats the query as given. *)
Theorem webSearch_results_normal :
  forall (env : Env) (text : jsstring) (w w' : World) (resp : SearchResponse),
    webSearch env text w = (w', inr resp) ->
    (List.length (results resp) <= 10)%nat
    /\ forallb normalResult (results resp) = true
    /\ query resp = text.
Proof.
  intros env text w w' resp H.
  destruct (URI.encodeURIComponent (trim text)) as [sq|] eqn:He.
  2:{ unfold webSearch in H. rewrite He in H. discriminate. }
  destruct (JS.eqb (MODE env) (lit "mock")) eqn:Hm.
  { rewrite (webSearch_mock env text sq w He Hm) in H.
    injection H as _ <-. repeat split. simpl. lia. }
  destruct (truthy (joined (SEARCH_API_KEY env))) eqn:Hk.
  2:{ rewrite (webSearch_no_key env text sq w He (conj Hm Hk)) in H.
      injection H as _ <-. repeat split. simpl. lia. }
  destruct (getOutcome env (tick w)) as [e|data] eqn:Ho.
  { rewrite (webSearch_failure env text sq w e He (conj Hm Hk) Ho) in H.
    injection H as _ <-. repeat split. simpl. lia. }
  rewrite (webSearch_success env text sq w data He (conj Hm Hk) Ho) in H.
  pose proof (f_equal snd H) as E. cbn [snd] in E.
  match type of E with
  | inr ?x = _ => assert (Hx : resp = x) by congruence
  end.
  rewrite Hx. cbn [results query]. split; [|split].
  - rewrite length_map. apply firstn_le_length.
  - apply forallb_map_normal.
  - reflexivity.
Qed.

(** The four results of [fourHits] are normal. *)
Lemma webSearch_results_normal_witness :
  exists resp,
    snd (webSearch liveEnv weather initial) = inr resp
    /\ (List.length (results resp) <= 10)%nat
    /\ forallb normalResult (results resp) = true
    /\ query resp = weather.
Proof.
  eexists. split; [reflexivity|].
  exact (webSearch_results_normal liveEnv weather initial _ _ eq_refl).
Defined.

(** X7: in mock mode, which is also the mode when [WEB_SEARCH_MODE] is
    unset or empty, and in any mode without a credential, the search client
    makes no request and logs nothing: the world is left as it was. *)
Theorem webSearch_offline_silent :
  forall (env : Env) (text : jsstring) (w : World),
    offline env -> fst (webSearch env text w) = w.
Proof.
  intros env text w Hoff. unfold webSearch.
  destruct (URI.encodeURIComponent (trim text)) as [sq|]; [|reflexivity].
  destruct (JS.eqb (MODE env) (lit "mock")) eqn:Hm; [reflexivity|].
  destruct Hoff as [Hoff | Hoff]; [congruence|].
  rewrite Hoff. reflexivity.
Qed.

(** Without any configuration the mode is mock and nothing is requested. *)
Lemma webSearch_offline_silent_witness :
  offline bareEnv /\ fst (webSearch bareEnv weather initial) = initial.
Proof.
  assert (H : offline bareEnv) by (left; reflexivity).
  split; [exact H | exact (webSearch_offline_silent bareEnv weather initial H)].
Defined.

(** X8: in live mode with a credential, and on a query whose trimmed form
    can be percent-encoded (on the others it throws before any request),
    the search client makes exactly one request, with the encoded query,
    and returns; when the request fails it logs one line, the failure as
    the console prints it after the words [Search API Error: ], and
    returns a response without results, total 0, whose summary is the
    failure as a template literal renders it after the words
    [Search failed: ]. *)
Theorem webSearch_live_request :
  forall (env : Env) (text sq : jsstring) (w : World),
    liveWithKey env ->
    encodes text sq ->
    exists log resp,
      webSearch env text w
      = ({| trace := trace w ++ Get sq :: log; tick := S (tick w) |},
         inr resp)
      /\ ((exists data, getOutcome env (tick w) = inr data /\ log = [])
          \/ (exists e,
                getOutcome env (tick w) = inl e
                /\ log
                   = [ConsoleError
                        (lit "Search API Error: " ++ searchFailureLog e)]
                /\ resp
                   = emptyResponse text
                       (lit "Search failed: " ++ searchFailureText e))).
Proof.
  intros env text sq w Hl He.
  destruct (getOutcome env (tick w)) as [e|data] eqn:Ho.
  - eexists _, _. split.
    + rewrite (webSearch_failure env text sq w e He Hl Ho).
      unfold after. cbn [app]. do 2 f_equal. lia.
    + right. exists e. now repeat split.
  - eexists _, _. split.
    + rewrite (webSearch_success env text sq w data He Hl Ho).
      unfold after. do 2 f_equal. lia.
    + left. now exists data.
Qed.

(** A search service that is down: one request, one log line, a response
    without results. *)
Lemma webSearch_live_request_witness :
  exists log resp,
    webSearch downEnv weather initial
    = ({| trace := [] ++ Get (lit "current%20weather%20in%20Paris") :: log;
          tick := 1 |}, inr resp)
    /\ ((exists data, getOutcome downEnv 0%nat = inr data /\ log = [])
        \/ (exists e,
              getOutcome downEnv 0%nat = inl e
              /\ log
                 = [ConsoleError
                      (lit "Search API Error: " ++ searchFailureLog e)]
              /\ resp
                 = emptyResponse weather
                     (lit "Search failed: " ++ searchFailureText e))).
Proof.
  exact (webSearch_live_request downEnv weather
           (lit "current%20weather%20in%20Paris") initial
           (conj eq_refl eq_refl) eq_refl).
Defined.

(* ===================================================================== *)
(** * Stretches of effects, step by step *)
(* ===================================================================== *)

(** A family [P n] of properties of stretches, indexed by a bound that adds
    up under concatenation (a property without a bound is a constant
    family), is carried through every step of the pipeline once it holds
    of the single effects. *)
Section Stretch.

Variable P : nat -> list Effect -> Prop.
Hypothesis P_nil : P 0 [].
Hypothesis P_app : forall n k a b, P n a -> P k b -> P (n + k) (a ++ b).
Hypothesis P_mono : forall n k a, (n <= k)%nat -> P n a -> P k a.

Lemma keeps_ret {A} (a : A) : Traces (ret a) (P 0).
Proof. intros w. exists []. split; [now rewrite app_nil_r | exact P_nil]. Qed.

Lemma keeps_throw {A} (e : Thrown) : Traces (@throw A e) (P 0).
Proof. intros w. exists []. split; [now rewrite app_nil_r | exact P_nil]. Qed.

Lemma keeps_emit (e : Effect) (n : nat) : P n [e] -> Traces (emit e) (P n).
Proof. intros H w. now exists [e]. Qed.

Lemma keeps_ask {A} (e : Effect) (o : nat -> Thrown + A) (n : nat) :
  P n [e] -> Traces (ask e o) (P n).
Proof. intros H w. now exists [e]. Qed.

Lemma keeps_mono {A} (m : M A) (n k : nat) :
  (n <= k)%nat -> Traces m (P n) -> Traces m (P k).
Proof.
  intros Hnk Hm w. destruct (Hm w) as [t [E C]].
  exists t. split; [exact E | exact (P_mono n k t Hnk C)].
Qed.

Lemma keeps_bind {A B} (m : M A) (f : A -> M B) (n k : nat) :
  Traces m (P n) -> (forall a, Traces (f a) (P k)) ->
  Traces (bind m f) (P (n + k)).
Proof.
  intros Hm Hf w. unfold bind.
  destruct (Hm w) as [t1 [E1 C1]]. destruct (m w) as [w1 [e|a]].
  - exists t1. split; [exact E1|]. apply (P_mono n); [lia | exact C1].
  - simpl in E1. destruct (Hf a w1) as [t2 [E2 C2]].
    exists (t1 ++ t2). split.
    + now rewrite E2, E1, app_assoc.
    + now apply P_app.
Qed.

Lemma keeps_tryCatch {A} (body : M A) (h : Thrown -> M A) (n k : nat) :
  Traces body (P n) -> (forall e, Traces (h e) (P k)) ->
  Traces (tryCatch body h) (P (n + k)).
Proof.
  intros Hm Hh w. unfold tryCatch.
  destruct (Hm w) as [t1 [E1 C1]]. destruct (body w) as [w1 [e|a]].
  - simpl in E1. destruct (Hh e w1) as [t2 [E2 C2]].
    exists (t1 ++ t2). split.
    + now rewrite E2, E1, app_assoc.
    + now apply P_app.
  - exists t1. split; [exact E1|]. apply (P_mono n); [lia | exact C1].
Qed.

Lemma keeps_tryFinally {A} (body : M A) (fin : M unit) (n k : nat) :
  Traces body (P n) -> Traces fin (P k) ->
  Traces (tryFinally body fin) (P (n + k)).
Proof.
  intros Hm Hf w. unfold tryFinally.
  destruct (Hm w) as [t1 [E1 C1]]. destruct (body w) as [w1 r].
  simpl in E1. destruct (Hf w1) as [t2 [E2 C2]].
  exists (t1 ++ t2). split.
  - destruct (fin w1) as [w2 [e|u]]; simpl in *;
      now rewrite E2, E1, app_assoc.
  - now apply P_app.
Qed.

Ltac keep n k :=
  first [ apply (keeps_bind _ _ n k) | apply (keeps_tryCatch _ _ n k) ].

(** The costs of the single effects. *)
Variables cPost cGet cNow : nat.
Variable cSleep : nat -> nat.
Hypothesis P_post : forall p, P cPost [Post p].
Hypothesis P_get : forall q, P cGet [Get q].
Hypothesis P_now : P cNow [Now].
Hypothesis P_sleep : forall i, P (cSleep i) [Sleep (backoffDelay i)].
Hypothesis P_log : forall m, P 0 [ConsoleError m].
Hypothesis P_event :
  forall ev, isTerminal ev = false -> P 0 [Write ev; FlushHeaders].

Lemma keeps_event (ev : StreamEvent) :
  isTerminal ev = false -> Traces (streamEvent ev) (P 0).
Proof.
  intros H w. exists [Write ev; FlushHeaders]. split.
  - unfold streamEvent, bind, emit. simpl. now rewrite <- app_assoc.
  - now apply P_event.
Qed.

Lemma keeps_retryLoop {T} (fn : M T) (c : nat) :
  Traces fn (P c) ->
  forall (left i : nat) (lastErr : Thrown),
    Traces (retryLoop fn left i lastErr) (P (retryBound c cSleep left i)).
Proof.
  intros Hfn left. induction left as [|left IH]; intros i lastErr.
  - apply keeps_throw.
  - cbn [retryLoop retryBound]. keep c (cSleep i + retryBound c cSleep left (S i))%nat;
      [exact Hfn|].
    intros [e|]; [|apply (keeps_mono _ 0); [lia | apply keeps_throw]].
    destruct (isTransient e);
      [|apply (keeps_mono _ 0); [lia | apply keeps_throw]].
    keep (cSleep i) (retryBound c cSleep left (S i)).
    + unfold sleep. now apply keeps_emit.
    + intros _. apply IH.
Qed.

(** The bound of one call of the completion client. *)
Definition geminiBound : nat := retryBound cPost cSleep defaultRetries 0.

Lemma keeps_callGemini (env : Env) (p : jsstring) :
  Traces (callGemini env p) (P geminiBound).
Proof.
  unfold callGemini. apply (keeps_mono _ ((geminiBound + 0) + (0 + 0)));
    [lia|].
  keep (geminiBound + 0)%nat (0 + 0)%nat.
  - keep geminiBound 0%nat.
    + apply keeps_retryLoop. unfold axiosPost. now apply keeps_ask.
    + intros resp. destruct (candidateText resp) as [t|];
        [|apply keeps_throw].
      destruct (truthy t); [apply keeps_ret | apply keeps_throw].
  - intros [e|]; [|apply (keeps_mono _ 0); [lia | apply keeps_throw]].
    keep 0%nat 0%nat; [now apply keeps_emit | intros _; apply keeps_throw].
Qed.

Lemma keeps_webSearch (env : Env) (text : jsstring) :
  Traces (webSearch env text) (P cGet).
Proof.
  unfold webSearch.
  destruct (URI.encodeURIComponent (trim text)) as [sq|];
    [|apply (keeps_mono _ 0); [lia | apply keeps_throw]].
  destruct (JS.eqb (MODE env) (lit "mock"));
    [apply (keeps_mono _ 0); [lia | apply keeps_ret]|].
  destruct (negb (truthy (joined (SEARCH_API_KEY env))));
    [apply (keeps_mono _ 0); [lia | apply keeps_ret]|].
  apply (keeps_mono _ ((cGet + 0) + (0 + 0))); [lia|].
  keep (cGet + 0)%nat (0 + 0)%nat.
  - keep cGet 0%nat; [unfold axiosGet; now apply keeps_ask|].
    intros resp. apply keeps_ret.
  - intros [e|]; [|apply (keeps_mono _ 0); [lia | apply keeps_throw]].
    keep 0%nat 0%nat; [now apply keeps_emit | intros _; apply keeps_ret].
Qed.

Lemma keeps_dateNow (env : Env) : Traces (dateNow env) (P cNow).
Proof. unfold dateNow. now apply keeps_ask. Qed.

Lemma keeps_acknowledge (safeQuery : jsstring) :
  Traces (acknowledge safeQuery) (P 0).
Proof. unfold acknowledge. now apply keeps_event. Qed.

Lemma keeps_decide (env : Env) (safeQuery : jsstring) :
  Traces (decide env safeQuery) (P (cNow + geminiBound)).
Proof.
  unfold decide.
  apply (keeps_mono _ (cNow + (0 + (geminiBound + (0 + 0))))); [lia|].
  keep cNow (0 + (geminiBound + (0 + 0)))%nat; [apply keeps_dateNow|].
  intros t. keep 0%nat (geminiBound + (0 + 0))%nat;
    [now apply keeps_event|].
  intros _. keep geminiBound (0 + 0)%nat; [apply keeps_callGemini|].
  intros raw. keep 0%nat 0%nat; [|intros _; apply keeps_ret].
  destruct (parseDecision raw); now apply keeps_event.
Qed.

Lemma keeps_toolCall (env : Env) (safeQuery : jsstring) (needSearch : bool) :
  Traces (toolCall env safeQuery needSearch) (P cGet).
Proof.
  unfold toolCall. destruct needSearch;
    [|apply (keeps_mono _ 0); [lia | apply keeps_ret]].
  apply (keeps_mono _ (0 + (cGet + (0 + 0)))); [lia|].
  keep 0%nat (cGet + (0 + 0))%nat; [now apply keeps_event|].
  intros _. keep cGet (0 + 0)%nat; [apply keeps_webSearch|].
  intros searchData. keep 0%nat 0%nat;
    [now apply keeps_event | intros _; apply keeps_ret].
Qed.

Lemma keeps_synthesize (env : Env) (safeQuery : jsstring) (needSearch : bool)
      (prompt : jsstring) :
  Traces (synthesize env safeQuery needSearch prompt)
         (P (cNow + geminiBound)).
Proof.
  unfold synthesize.
  apply (keeps_mono _ (cNow + (0 + (geminiBound + 0)))); [lia|].
  keep cNow (0 + (geminiBound + 0))%nat; [apply keeps_dateNow|].
  intros today. keep 0%nat (geminiBound + 0)%nat;
    [now apply keeps_event|].
  intros _. keep geminiBound 0%nat; [apply keeps_callGemini|].
  intros answer. destruct (truthy answer); now apply keeps_event.
Qed.

(** The bound of the steps of the pipeline that precede the done event. *)
Definition stepsBound : nat :=
  (cNow + geminiBound) + (cGet + ((cNow + geminiBound) + cNow)).

(** A run that throws leaves a stretch within the bound [n]; a run that
    returns leaves such a stretch followed by the done event. *)
Definition EndsDone {A} (n : nat) (w : World) (run : World * (Thrown + A))
  : Prop :=
  exists tr,
    P n tr
    /\ ((exists e, snd run = inl e /\ trace (fst run) = trace w ++ tr)
        \/ ((exists a, snd run = inr a)
            /\ trace (fst run)
               = trace w ++ tr ++ [Write (bareEvent done); FlushHeaders])).

Lemma endsDone_bind {A B} (m : M A) (f : A -> M B) (n k : nat) :
  Traces m (P n) -> (forall a w1, EndsDone k w1 (f a w1)) ->
  forall w, EndsDone (n + k) w (bind m f w).
Proof.
  intros Hm Hf w. unfold bind.
  destruct (Hm w) as [t1 [E1 C1]]. destruct (m w) as [w1 [e|a]].
  - exists t1. split; [apply (P_mono n); [lia | exact C1]|].
    left. now exists e.
  - cbn [fst] in E1. destruct (Hf a w1) as [t2 [C2 Hend]].
    exists (t1 ++ t2). split; [now apply P_app|].
    destruct Hend as [[e [Hs Ht]] | [Hs Ht]].
    + left. exists e. split; [exact Hs|]. now rewrite Ht, E1, app_assoc.
    + right. split; [exact Hs|]. now rewrite Ht, E1, <- !app_assoc.
Qed.

Lemma endsDone_done (w : World) :
  EndsDone 0 w (streamEvent (bareEvent done) w).
Proof.
  exists []. split; [exact P_nil|]. right. split; [now exists tt|].
  unfold streamEvent, bind, emit. cbn [fst trace app].
  now rewrite <- app_assoc.
Qed.

Lemma pipeline_run (env : Env) (safeQuery : jsstring) (startTime : Z)
      (w : World) :
  EndsDone stepsBound w (pipeline env safeQuery startTime w).
Proof.
  destruct (endsDone_bind (acknowledge safeQuery)
              (fun _ =>
                 needSearch <- decide env safeQuery ;;
                 searchResultsForPrompt <-
                   toolCall env safeQuery needSearch ;;
                 synthesize env safeQuery needSearch
                   searchResultsForPrompt ;;;
                 finalize env startTime)
              0 ((cNow + geminiBound)
                 + (cGet + ((cNow + geminiBound) + (cNow + (0 + 0)))))
              (keeps_acknowledge safeQuery)) with (w := w)
    as [tr [C Hend]].
  - intros _ w1. apply endsDone_bind; [apply keeps_decide|].
    intros needSearch w2. apply endsDone_bind; [apply keeps_toolCall|].
    intros prompt w3. apply endsDone_bind; [apply keeps_synthesize|].
    intros _ w4. unfold finalize.
    apply endsDone_bind; [apply keeps_dateNow|].
    intros finish w5. apply endsDone_bind; [now apply keeps_event|].
    intros _ w6. apply endsDone_done.
  - exists tr. split; [|exact Hend].
    refine (P_mono _ stepsBound _ _ C). unfold stepsBound. lia.
Qed.

(** The bound of step 4 and the metrics. *)
Definition wrapUpBound : nat := (cNow + geminiBound) + cNow.

Lemma wrapUp_run (env : Env) (safeQuery : jsstring) (startTime : Z)
      (needSearch : bool) (prompt : jsstring) (w : World) :
  EndsDone wrapUpBound w (wrapUp env safeQuery startTime needSearch prompt w).
Proof.
  unfold wrapUp.
  destruct (endsDone_bind
              (synthesize env safeQuery needSearch prompt)
              (fun _ => finalize env startTime)
              (cNow + geminiBound) (cNow + (0 + 0))
              (keeps_synthesize env safeQuery needSearch prompt))
    with (w := w) as [tr [C Hend]].
  - intros _ w4. unfold finalize.
    apply endsDone_bind; [apply keeps_dateNow|].
    intros finish w5. apply endsDone_bind; [now apply keeps_event|].
    intros _ w6. apply endsDone_done.
  - exists tr. split; [|exact Hend].
    refine (P_mono _ wrapUpBound _ _ C). unfold wrapUpBound. lia.
Qed.

(** A body that ends with the done event, under the [try], [catch] and
    [finally] of the handler. *)
Lemma guarded_run (m : M unit) (n : nat) (w : World) :
  EndsDone n w (m w) ->
  exists tr ending,
    P n tr
    /\ trace (fst (guarded m w)) = trace w ++ tr ++ ending ++ [End]
    /\ (ending = doneEnding \/ exists err, ending = errorEnding err).
Proof.
  intros [tr [C Hend]]. unfold guarded, tryFinally, tryCatch.
  destruct (m w) as [w1 r]. cbn [fst snd trace] in Hend.
  destruct Hend as [[e [-> Ht]] | [[[] ->] Ht]].
  - exists tr, (errorEnding e). split; [exact C|]. split; [|right; now exists e].
    unfold onError, streamEvent, bind, emit. cbn [fst trace].
    rewrite Ht. unfold errorEnding. rewrite <- !app_assoc. reflexivity.
  - exists tr, doneEnding. split; [exact C|]. split; [|now left].
    unfold emit. cbn [fst trace]. rewrite Ht. unfold doneEnding.
    rewrite <- !app_assoc. reflexivity.
Qed.

(** The trace of a request: that of a refusal, or the headers, the clock
    reading, the steps of the pipeline and one of the two endings, and then
    the end of the stream. *)
Lemma chat_run (env : Env) (req : Request) :
  trace (fst (chat env req initial)) = refusal
  \/ exists tr ending,
       P stepsBound tr
       /\ trace (fst (chat env req initial))
          = headers ++ [Now] ++ tr ++ ending ++ [End]
       /\ (ending = doneEnding \/ exists err, ending = errorEnding err).
Proof.
  unfold chat.
  destruct (requestQuery req) as [| | b | n | query |];
    try (left; reflexivity).
  destruct (negb (truthy (trim query))); [left; reflexivity|].
  right.
  match goal with
  | |- context [?m initial] =>
      change (m initial)
        with (guarded (pipeline env (trim query) (clock env 0%nat))
                {| trace := headers ++ [Now]; tick := 1 |})
  end.
  destruct (pipeline_run env (trim query) (clock env 0%nat)
              {| trace := headers ++ [Now]; tick := 1 |})
    as [tr [C Hend]].
  unfold guarded, tryFinally, tryCatch.
  destruct (pipeline env (trim query) (clock env 0%nat)
              {| trace := headers ++ [Now]; tick := 1 |}) as [w1 r].
  cbn [fst snd trace] in Hend.
  destruct Hend as [[e [-> Ht]] | [[[] ->] Ht]].
  - exists tr, (errorEnding e). split; [exact C|]. split; [|right; now exists e].
    unfold onError, streamEvent, bind, emit. cbn [fst trace].
    rewrite Ht. unfold errorEnding. rewrite <- !app_assoc. reflexivity.
  - exists tr, doneEnding. split; [exact C|]. split; [|now left].
    unfold emit. cbn [fst trace]. rewrite Ht. unfold doneEnding.
    rewrite <- !app_assoc. reflexivity.
Qed.

End Stretch.

(* ===================================================================== *)
(** * Invariants of every request *)
(* ===================================================================== *)

Lemma openEvents_app (a b : list Effect) :
  openEvents a -> openEvents b -> openEvents (a ++ b).
Proof.
  unfold openEvents. intros Ha Hb.
  now rewrite events_app, forallb_app, Ha, Hb.
Qed.

(** The trace of a request, with the steps writing no terminal event. *)
Lemma chat_run_open (env : Env) (req : Request) :
  trace (fst (chat env req initial)) = refusal
  \/ exists tr ending,
       openEvents tr
       /\ trace (fst (chat env req initial))
          = headers ++ [Now] ++ tr ++ ending ++ [End]
       /\ (ending = doneEnding \/ exists err, ending = errorEnding err).
Proof.
  apply (chat_run (fun _ => openEvents) eq_refl
           (fun _ _ => openEvents_app) (fun _ _ _ _ H => H)
           0 0 0 (fun _ => 0%nat)
           (fun _ => eq_refl) (fun _ => eq_refl) eq_refl
           (fun _ => eq_refl) (fun _ => eq_refl)).
  intros ev H. unfold openEvents. simpl. now rewrite H.
Qed.

(** X13: the events of every request end with exactly one terminal event,
    a done or an error, and no event before it is terminal. *)
Theorem chat_one_terminal_event :
  forall (env : Env) (req : Request),
    exists evs last,
      events (trace (fst (chat env req initial))) = evs ++ [last]
      /\ isTerminal last = true
      /\ forallb (fun ev => negb (isTerminal ev)) evs = true.
Proof.
  intros env req.
  destruct (chat_run_open env req) as [-> | [tr [ending [Ho [-> Hend]]]]].
  - exists [], (textEvent error (lit "Valid 'query' string required")).
    repeat split.
  - rewrite !events_app.
    change (events headers) with (@nil StreamEvent).
    change (events [Now]) with (@nil StreamEvent).
    change (events [End]) with (@nil StreamEvent).
    rewrite app_nil_r. cbn [app].
    destruct Hend as [-> | [err ->]].
    + exists (events tr), (bareEvent done). now repeat split.
    + eexists (events tr), _. split; [reflexivity|]. now split.
Qed.

Lemma flushed_app (a b : list Effect) :
  flushed a = true -> flushed b = true -> flushed (a ++ b) = true.
Proof.
  remember (List.length a) as n eqn:Hn. revert a Hn.
  induction n as [n IH] using lt_wf_ind. intros a Hn Ha Hb.
  destruct a as [|e a]; [exact Hb|].
  destruct e; cbn [app flushed] in *;
    try (apply (IH (List.length a)); simpl in *; [lia | reflexivity | assumption | assumption]).
  destruct a as [|e' a]; [discriminate|].
  destruct e'; try discriminate. cbn [app].
  apply (IH (List.length a)); simpl in *; [lia | reflexivity | assumption | assumption].
Qed.

(** X12: every response starts with the three SSE headers and a flush, and
    every event written to it is flushed at once: in the trace of every
    request each write is followed immediately by a flush. *)
Theorem chat_headers_first_and_flushed :
  forall (env : Env) (req : Request),
    (exists rest, trace (fst (chat env req initial)) = headers ++ rest)
    /\ flushed (trace (fst (chat env req initial))) = true.
Proof.
  intros env req.
  destruct (chat_run (fun _ tr => flushed tr = true) eq_refl
              (fun _ _ => flushed_app) (fun _ _ _ _ H => H)
              0 0 0 (fun _ => 0%nat)
              (fun _ => eq_refl) (fun _ => eq_refl) eq_refl
              (fun _ => eq_refl) (fun _ => eq_refl)
              (fun _ _ => eq_refl) env req)
    as [-> | [tr [ending [Hf [-> Hend]]]]].
  - split; [|reflexivity]. now eexists.
  - split; [now eexists|].
    apply flushed_app; [reflexivity|].
    apply flushed_app; [reflexivity|].
    apply flushed_app; [exact Hf|].
    destruct Hend as [-> | [err ->]]; reflexivity.
Qed.

Lemma total_app (cost : Effect -> nat) (a b : list Effect) :
  total cost (a ++ b) = (total cost a + total cost b)%nat.
Proof. unfold total. now rewrite map_app, list_sum_app. Qed.

Section Cost.

Variable cost : Effect -> nat.
Variables cPost cGet cNow : nat.
Variable cSleep : nat -> nat.
Hypothesis cost_post : forall p, (cost (Post p) <= cPost)%nat.
Hypothesis cost_get : forall q, (cost (Get q) <= cGet)%nat.
Hypothesis cost_now : (cost Now <= cNow)%nat.
Hypothesis cost_sleep :
  forall i, (cost (Sleep (backoffDelay i)) <= cSleep i)%nat.
Hypothesis cost_log : forall m, cost (ConsoleError m) = 0%nat.
Hypothesis cost_write : forall ev, cost (Write ev) = 0%nat.
Hypothesis cost_flush : cost FlushHeaders = 0%nat.
Hypothesis cost_header : forall k v, cost (SetHeader k v) = 0%nat.
Hypothesis cost_status : forall c, cost (Status c) = 0%nat.
Hypothesis cost_end : cost End = 0%nat.

Definition within (n : nat) (tr : list Effect) : Prop :=
  (total cost tr <= n)%nat.

(** The cost of a request is at most that of one clock reading and of the
    steps of the pipeline. *)
Lemma chat_cost (env : Env) (req : Request) :
  (total cost (trace (fst (chat env req initial)))
   <= cNow + stepsBound cPost cGet cNow cSleep)%nat.
Proof.
  assert (Hone : forall e n, (cost e <= n)%nat -> within n [e]).
  { intros e n H. unfold within, total. simpl. lia. }
  destruct (chat_run within
              ltac:(unfold within, total; simpl; lia)
              ltac:(unfold within; intros n k a b Ha Hb;
                    rewrite total_app; lia)
              ltac:(unfold within; intros n k a Hnk Ha; lia)
              cPost cGet cNow cSleep
              ltac:(intros p; now apply Hone)
              ltac:(intros q; now apply Hone)
              ltac:(now apply Hone)
              ltac:(intros i; now apply Hone)
              ltac:(intros m; apply Hone; rewrite cost_log; lia)
              ltac:(intros ev _; unfold within, total; simpl;
                    rewrite cost_write, cost_flush; lia)
              env req)
    as [-> | [tr [ending [Hw [-> Hend]]]]].
  - unfold refusal, total. simpl.
    rewrite !cost_header, !cost_flush, cost_write, cost_status, cost_end.
    lia.
  - rewrite !total_app. unfold within in Hw.
    assert (He : total cost ending = 0%nat).
    { destruct Hend as [-> | [err ->]]; unfold total; simpl;
        rewrite ?cost_write, ?cost_flush, ?cost_log; reflexivity. }
    rewrite He. unfold headers, total at 1 2 4. simpl.
    rewrite !cost_header, !cost_flush, cost_end. lia.
Qed.

End Cost.

(** X14: whatever the services answer, one request posts at most six
    times to the completion service, sends at most one request to the
    search service, reads the clock at most four times and sleeps at most
    14000 ms in retry delays. *)
Theorem chat_budget :
  forall (env : Env) (req : Request),
    (total postCost (trace (fst (chat env req initial))) <= 6)%nat
    /\ (total getCost (trace (fst (chat env req initial))) <= 1)%nat
    /\ (total clockCost (trace (fst (chat env req initial))) <= 4)%nat
    /\ (total sleepCost (trace (fst (chat env req initial))) <= 14000)%nat.
Proof.
  intros env req. split; [|split; [|split]].
  - apply (chat_cost postCost 1 0 0 (fun _ => 0%nat)); intros; simpl; lia.
  - apply (chat_cost getCost 0 1 0 (fun _ => 0%nat)); intros; simpl; lia.
  - apply (chat_cost clockCost 0 0 1 (fun _ => 0%nat)); intros; simpl; lia.
  - apply (Nat.le_trans _
             (0 + stepsBound 0 0 0 (fun i => Z.to_nat (backoffDelay i)))).
    + apply (chat_cost sleepCost 0 0 0
               (fun i => Z.to_nat (backoffDelay i)));
        intros; simpl; lia.
    + vm_compute. apply Nat.leb_le. vm_compute. reflexivity.
Qed.

(* ===================================================================== *)
(** * Trimming and letter case *)
(* ===================================================================== *)

Lemma trimStart_app_blank (a s : jsstring) :
  forallb isWhiteSpace a = true -> trimStart (a ++ s) = trimStart s.
Proof.
  induction a as [|c a IH]; [reflexivity|].
  simpl. intros H. apply andb_true_iff in H as [-> Ha]. now apply IH.
Qed.

Lemma trimStart_snoc (l : jsstring) (c : Z) :
  isWhiteSpace c = false -> trimStart (l ++ [c]) = trimStart l ++ [c].
Proof.
  intros Hc. induction l as [|x l IH]; simpl.
  - now rewrite Hc.
  - now destruct (isWhiteSpace x).
Qed.

Lemma trimEnd_cons (c : Z) (t : jsstring) :
  isWhiteSpace c = false -> trimEnd (c :: t) = c :: trimEnd t.
Proof.
  intros Hc. unfold trimEnd. simpl rev.
  now rewrite (trimStart_snoc _ _ Hc), rev_app_distr.
Qed.

Lemma trimStart_fixed (s : jsstring) :
  trimStart (trimStart s) = trimStart s.
Proof.
  induction s as [|c t IH]; [reflexivity|].
  simpl. destruct (isWhiteSpace c) eqn:Hc; [exact IH|].
  simpl. now rewrite Hc.
Qed.

Lemma trimEnd_fixed (s : jsstring) : trimEnd (trimEnd s) = trimEnd s.
Proof.
  unfold trimEnd. now rewrite rev_involutive, trimStart_fixed.
Qed.

Lemma trimStart_trimEnd (s : jsstring) :
  trimStart (trimEnd (trimStart s)) = trimEnd (trimStart s).
Proof.
  destruct (forallb isWhiteSpace s) eqn:Hb.
  - now rewrite (trimStart_blank s Hb).
  - destruct (trimStart_nonblank s Hb) as [c [t [-> Hc]]].
    rewrite (trimEnd_cons c t Hc). simpl. now rewrite Hc.
Qed.

Lemma trim_idempotent (s : jsstring) : trim (trim s) = trim s.
Proof.
  unfold trim. now rewrite trimStart_trimEnd, trimEnd_fixed.
Qed.

Lemma last_rev_head (c d : Z) (t : jsstring) :
  last (rev (c :: t)) d = c.
Proof. simpl. apply last_last. Qed.

Lemma trimEnd_tidy_end (s : jsstring) :
  match rev (trimEnd s) with
  | [] => True
  | c :: _ => isWhiteSpace c = false
  end.
Proof.
  unfold trimEnd. rewrite rev_involutive.
  destruct (forallb isWhiteSpace (rev s)) eqn:Hb.
  - now rewrite (trimStart_blank _ Hb).
  - now destruct (trimStart_nonblank _ Hb) as [c [t [-> Hc]]].
Qed.

Lemma trim_tidy (s : jsstring) : tidy (trim s) = true.
Proof.
  destruct (trim s) as [|c t] eqn:E; [reflexivity|].
  unfold tidy. apply andb_true_iff. split.
  - pose proof (trimStart_trimEnd s) as H. fold (trim s) in H.
    rewrite E in H. simpl in H.
    destruct (isWhiteSpace c); [|reflexivity].
    exfalso. assert (Hl : List.length (trimStart t) = S (List.length t))
      by now rewrite H.
    clear -Hl. assert (Hle : forall l, (List.length (trimStart l)
                                        <= List.length l)%nat).
    { induction l as [|x l IH]; simpl; [lia|].
      destruct (isWhiteSpace x); simpl; lia. }
    specialize (Hle t). lia.
  - pose proof (trimEnd_tidy_end (trimStart s)) as H. fold (trim s) in H.
    rewrite E in H.
    destruct (rev (c :: t)) as [|d r] eqn:Er.
    + apply (f_equal (@List.length Z)) in Er. rewrite length_rev in Er.
      discriminate.
    + apply (f_equal (@rev Z)) in Er. rewrite rev_involutive in Er.
      rewrite Er. simpl rev. rewrite last_last. now rewrite H.
Qed.

Lemma trimStart_split (s : jsstring) :
  exists a, s = a ++ trimStart s /\ forallb isWhiteSpace a = true.
Proof.
  induction s as [|c t [a [IH Ha]]]; [now exists []|].
  simpl. destruct (isWhiteSpace c) eqn:Hc.
  - exists (c :: a). simpl. rewrite Hc, Ha. split; [now rewrite <- IH | reflexivity].
  - now exists [].
Qed.

Lemma forallb_rev {A} (f : A -> bool) (l : list A) :
  forallb f (rev l) = forallb f l.
Proof.
  induction l as [|x l IH]; [reflexivity|].
  simpl. rewrite forallb_app, IH. simpl. rewrite andb_true_r.
  apply andb_comm.
Qed.

Lemma trimEnd_split (s : jsstring) :
  exists b, s = trimEnd s ++ b /\ forallb isWhiteSpace b = true.
Proof.
  destruct (trimStart_split (rev s)) as [a [E Ha]].
  exists (rev a). split; [|now rewrite forallb_rev].
  unfold trimEnd. rewrite <- rev_app_distr, <- E. now rewrite rev_involutive.
Qed.

(** X11: the query that the handler works with, the trimmed one, is the
    query without a stretch of whitespace at its start and one at its end;
    it has no whitespace at either end, is not empty when the query holds a
    character that is not whitespace, and is left as it is by the second
    trim that the search client applies to it. *)
Theorem safeQuery_tidy :
  forall query : jsstring,
    (exists a b,
        query = a ++ trim query ++ b
        /\ forallb isWhiteSpace a = true
        /\ forallb isWhiteSpace b = true)
    /\ tidy (trim query) = true
    /\ trim (trim query) = trim query
    /\ (forallb isWhiteSpace query = false -> truthy (trim query) = true).
Proof.
  intros query. split; [|split; [apply trim_tidy|]].
  - destruct (trimStart_split query) as [a [Ea Ha]].
    destruct (trimEnd_split (trimStart query)) as [b [Eb Hb]].
    exists a, b. split; [|now split].
    unfold trim. now rewrite <- Eb.
  - split; [apply trim_idempotent | apply trim_nonblank].
Qed.

Lemma trimStart_app_nonblank (s b : jsstring) :
  forallb isWhiteSpace s = false -> trimStart (s ++ b) = trimStart s ++ b.
Proof.
  induction s as [|c t IH]; [discriminate|].
  simpl. destruct (isWhiteSpace c); [exact IH | reflexivity].
Qed.

Lemma trimEnd_app_blank (s b : jsstring) :
  forallb isWhiteSpace b = true -> trimEnd (s ++ b) = trimEnd s.
Proof.
  intros Hb. unfold trimEnd. rewrite rev_app_distr.
  now rewrite trimStart_app_blank by now rewrite forallb_rev.
Qed.

(** Whitespace around a string does not change what is left of it. *)
Lemma trim_padding (a s b : jsstring) :
  forallb isWhiteSpace a = true -> forallb isWhiteSpace b = true ->
  trim (a ++ s ++ b) = trim s.
Proof.
  intros Ha Hb. unfold trim. rewrite (trimStart_app_blank a _ Ha).
  destruct (forallb isWhiteSpace s) eqn:Hs.
  - rewrite (trimStart_blank s Hs).
    now rewrite trimStart_blank by now rewrite forallb_app, Hs, Hb.
  - rewrite (trimStart_app_nonblank s b Hs). now apply trimEnd_app_blank.
Qed.

Lemma isWhiteSpace_lowerUnit (c : Z) :
  isWhiteSpace (lowerUnit c) = isWhiteSpace c.
Proof.
  unfold lowerUnit. destruct ((65 <=? c) && (c <=? 90)) eqn:E;
    [|reflexivity].
  unfold isWhiteSpace.
  repeat match goal with
         | |- context [?a <=? ?b] => replace (a <=? b) with
               (if Z_le_dec a b then true else false)
               by (destruct (Z_le_dec a b); lia)
         | |- context [?a =? ?b] => replace (a =? b) with false by lia
         end.
  repeat match goal with
         | |- context [Z_le_dec ?a ?b] => destruct (Z_le_dec a b); try lia
         end; reflexivity.
Qed.

Lemma isWhiteSpace_upperUnit (c : Z) :
  isWhiteSpace (upperUnit c) = isWhiteSpace c.
Proof.
  unfold upperUnit. destruct ((97 <=? c) && (c <=? 122)) eqn:E;
    [|reflexivity].
  unfold isWhiteSpace.
  repeat match goal with
         | |- context [?a <=? ?b] => replace (a <=? b) with
               (if Z_le_dec a b then true else false)
               by (destruct (Z_le_dec a b); lia)
         | |- context [?a =? ?b] => replace (a =? b) with false by lia
         end.
  repeat match goal with
         | |- context [Z_le_dec ?a ?b] => destruct (Z_le_dec a b); try lia
         end; reflexivity.
Qed.

Lemma lowerUnit_upperUnit (c : Z) : lowerUnit (upperUnit c) = lowerUnit c.
Proof.
  unfold lowerUnit, upperUnit.
  destruct ((97 <=? c) && (c <=? 122)) eqn:E1;
    destruct ((65 <=? c) && (c <=? 90)) eqn:E2;
    try destruct ((65 <=? c - 32) && (c - 32 <=? 90)) eqn:E3; lia.
Qed.

Lemma lowerUnit_idempotent (c : Z) : lowerUnit (lowerUnit c) = lowerUnit c.
Proof.
  unfold lowerUnit.
  destruct ((65 <=? c) && (c <=? 90)) eqn:E1; [|now rewrite E1].
  destruct ((65 <=? c + 32) && (c + 32 <=? 90)) eqn:E2; lia.
Qed.

Section CaseMap.

Variable f : Z -> Z.
Hypothesis f_space : forall c, isWhiteSpace (f c) = isWhiteSpace c.

Lemma trimStart_map (s : jsstring) :
  trimStart (map f s) = map f (trimStart s).
Proof.
  induction s as [|c t IH]; [reflexivity|].
  simpl. rewrite f_space. now destruct (isWhiteSpace c).
Qed.

Lemma trim_map (s : jsstring) : trim (map f s) = map f (trim s).
Proof.
  unfold trim, trimEnd.
  now rewrite trimStart_map, <- map_rev, trimStart_map, map_rev.
Qed.

Hypothesis f_lower : forall c, lowerUnit (f c) = lowerUnit c.

Lemma parseDecision_map (raw : jsstring) :
  parseDecision (map f raw) = parseDecision raw.
Proof.
  unfold parseDecision, toLowerCase. rewrite trim_map, map_map.
  now rewrite (map_ext _ _ f_lower).
Qed.

End CaseMap.

Lemma parseDecision_padding (a raw b : jsstring) :
  forallb isWhiteSpace a = true -> forallb isWhiteSpace b = true ->
  parseDecision (a ++ raw ++ b) = parseDecision raw.
Proof.
  intros Ha Hb. unfold parseDecision. now rewrite (trim_padding a raw b Ha Hb).
Qed.

(** X10: the decision does not depend on whitespace around the reply nor
    on the case of its Basic Latin letters: a reply padded with whitespace,
    written in capitals or already lowercased is parsed as the reply
    itself. *)
Theorem parseDecision_ignores_padding_and_case :
  forall raw a b : jsstring,
    forallb isWhiteSpace a = true ->
    forallb isWhiteSpace b = true ->
    parseDecision (a ++ raw ++ b) = parseDecision raw
    /\ parseDecision (a ++ map upperUnit raw ++ b) = parseDecision raw
    /\ parseDecision (toLowerCase raw) = parseDecision raw.
Proof.
  intros raw a b Ha Hb. split; [now apply parseDecision_padding|]. split.
  - rewrite (parseDecision_padding a _ b Ha Hb).
    apply (parseDecision_map upperUnit isWhiteSpace_upperUnit
             lowerUnit_upperUnit).
  - apply (parseDecision_map lowerUnit isWhiteSpace_lowerUnit
             lowerUnit_idempotent).
Qed.

(** A reply in capitals between line breaks. *)
Lemma parseDecision_ignores_padding_and_case_witness :
  parseDecision ([10; 32] ++ lit "yes" ++ [9]) = parseDecision (lit "yes")
  /\ parseDecision ([10; 32] ++ map upperUnit (lit "yes") ++ [9])
     = parseDecision (lit "yes")
  /\ parseDecision (toLowerCase (lit "yes")) = parseDecision (lit "yes").
Proof.
  exact (parseDecision_ignores_padding_and_case (lit "yes") [10; 32] [9]
           eq_refl eq_refl).
Defined.

(* ===================================================================== *)
(** * The citation block *)
(* ===================================================================== *)

Lemma occursIn_refl (s : jsstring) : occursIn s s.
Proof. exists [], []. now rewrite app_nil_r. Qed.

Lemma occursIn_app_r (p a s : jsstring) : occursIn p s -> occursIn p (a ++ s).
Proof.
  intros [pre [post ->]]. exists (a ++ pre), post. now rewrite <- app_assoc.
Qed.

Lemma occursIn_app_l (p s b : jsstring) : occursIn p s -> occursIn p (s ++ b).
Proof.
  intros [pre [post ->]]. exists pre, (post ++ b). now rewrite <- !app_assoc.
Qed.

Lemma occursIn_trans (p s t : jsstring) :
  occursIn p s -> occursIn s t -> occursIn p t.
Proof.
  intros [a [b ->]] [c [d ->]]. exists (c ++ a), (b ++ d).
  now rewrite <- !app_assoc.
Qed.

Lemma occursIn_join (sep x : jsstring) (xs : list jsstring) :
  In x xs -> occursIn x (join sep xs).
Proof.
  induction xs as [|y ys IH]; [contradiction|].
  intros [-> | Hin].
  - destruct ys as [|z zs]; [apply occursIn_refl|].
    cbn [join]. apply occursIn_app_l, occursIn_refl.
  - destruct ys as [|z zs]; [contradiction|].
    cbn [join]. apply occursIn_app_r, occursIn_app_r. now apply IH.
Qed.

Lemma mapi_nth {A B} (f : A -> Z -> B) (xs : list A) :
  forall (i0 : Z) (i : nat) (x : A),
    nth_error xs i = Some x ->
    nth_error (mapi f i0 xs) i = Some (f x (i0 + Z.of_nat i)).
Proof.
  induction xs as [|y ys IH]; intros i0 [|i] x H; try discriminate.
  - injection H as ->. simpl. now rewrite Z.add_0_r.
  - simpl in *. rewrite (IH (i0 + 1) i x H). do 2 f_equal. lia.
Qed.

(** X9: the citation block of a response without results is the fixed
    sentence; otherwise it holds, for the result at every position [i]
    counted from 0, the label [i+1] in brackets followed by the quoted
    title, and the snippet and the link of that result, and it ends with
    the instruction to cite. *)
Theorem formatForLLM_cites_every_result :
  forall (env : Env) (searchData : SearchResponse),
    (results searchData = [] ->
     formatForLLM env searchData = lit "No search results found.")
    /\ (forall (i : nat) (r : SearchResult),
           nth_error (results searchData) i = Some r ->
           occursIn (lit "[" ++ ofZ (Z.of_nat i + 1) ++ lit "] "
                     ++ dq ++ title r ++ dq)
                    (formatForLLM env searchData)
           /\ occursIn (snippet r) (formatForLLM env searchData)
           /\ occursIn (arrow ++ lit " " ++ link r)
                       (formatForLLM env searchData)
           /\ exists pre,
                formatForLLM env searchData
                = pre ++ lit "Use [1], [2], etc. to cite sources inline.").
Proof.
  intros env searchData. split.
  - intros H. unfold formatForLLM. now rewrite H.
  - intros i r Hn.
    assert (Hblock : occursIn (formatLine r (Z.of_nat i))
                              (formatForLLM env searchData)).
    { unfold formatForLLM.
      destruct (results searchData) as [|r0 rs] eqn:Hr;
        [now destruct i|].
      do 9 apply occursIn_app_r. apply occursIn_app_l.
      apply occursIn_join. apply (nth_error_In _ i).
      now rewrite (mapi_nth formatLine _ 0 i r Hn). }
    split; [|split; [|split]].
    + apply (occursIn_trans _ (formatLine r (Z.of_nat i))); [|exact Hblock].
      unfold formatLine. exists []. eexists. cbn [app].
      rewrite <- !app_assoc. reflexivity.
    + apply (occursIn_trans _ (formatLine r (Z.of_nat i))); [|exact Hblock].
      unfold formatLine. do 8 apply occursIn_app_r.
      apply occursIn_app_l, occursIn_refl.
    + apply (occursIn_trans _ (formatLine r (Z.of_nat i))); [|exact Hblock].
      unfold formatLine. do 11 apply occursIn_app_r.
      exists []. eexists. cbn [app]. rewrite <- !app_assoc. reflexivity.
    + unfold formatForLLM.
      destruct (results searchData) as [|r0 rs] eqn:Hr;
        [now destruct i|].
      eexists. rewrite !app_assoc. reflexivity.
Qed.

(* ===================================================================== *)
(** * The source of a result *)
(* ===================================================================== *)

Lemma startsWith_app (p t : jsstring) : startsWith (p ++ t) p = true.
Proof. apply startsWith_spec. now exists t. Qed.

Lemma includes_false_cons (c : Z) (s p : jsstring) :
  includes (c :: s) p = false ->
  startsWith (c :: s) p = false /\ includes s p = false.
Proof. rewrite includes_cons. apply orb_false_iff. Qed.

Lemma replaceStr_absent (s p r : jsstring) :
  includes s p = false -> replaceStr s p r = s.
Proof.
  induction s as [|c s IH]; intros H.
  - rewrite includes_nil in H. destruct p; [discriminate | reflexivity].
  - apply includes_false_cons in H as [Hs Hi].
    cbn [replaceStr]. rewrite Hs. now rewrite (IH Hi).
Qed.

Lemma replaceStr_cons (c : Z) (s p r : jsstring) :
  replaceStr (c :: s) p r
  = if startsWith (c :: s) p then r ++ skipn (List.length p) (c :: s)
    else c :: replaceStr s p r.
Proof. reflexivity. Qed.

Lemma replaceStr_removes_one (s p : jsstring) :
  includes s p = true ->
  (List.length (replaceStr s p []) + List.length p = List.length s)%nat.
Proof.
  induction s as [|c s IH]; intros H.
  - rewrite includes_nil in H. destruct p; [reflexivity | discriminate].
  - rewrite replaceStr_cons. rewrite includes_cons in H.
    destruct (startsWith (c :: s) p) eqn:Hs.
    + apply startsWith_spec in Hs as [post Hs]. rewrite Hs.
      rewrite skipn_app, skipn_all, Nat.sub_diag. cbn [skipn app].
      rewrite length_app. lia.
    + simpl in H. cbn [List.length]. rewrite <- (IH H). lia.
Qed.

(** X17: the source taken from a link is absent when the link is not a
    URL; otherwise it is the hostname with the first [www.] removed, which
    is the hostname itself when [www.] does not occur in it and the
    hostname without its first four characters when it starts with
    [www.]; an occurrence further inside the hostname is removed just the
    same. *)
Theorem extractDomain_strips_www :
  forall (env : Env) (url : option jsstring),
    (hostnameOf env (linkText url) = None -> extractDomain env url = None)
    /\ (forall h,
           hostnameOf env (linkText url) = Some h ->
           (includes h (lit "www.") = false -> extractDomain env url = Some h)
           /\ (startsWith h (lit "www.") = true ->
               extractDomain env url = Some (skipn 4 h))
           /\ (includes h (lit "www.") = true ->
               exists d,
                 extractDomain env url = Some d
                 /\ (List.length d + 4 = List.length h)%nat)).
Proof.
  intros env url. unfold extractDomain. fold (linkText url). split.
  - now intros ->.
  - intros h ->. split; [|split].
    + intros H. now rewrite (replaceStr_absent h _ _ H).
    + intros H. f_equal. destruct h as [|c h]; [discriminate|].
      rewrite replaceStr_cons, H. reflexivity.
    + intros H. eexists. split; [reflexivity|].
      exact (replaceStr_removes_one h (lit "www.") H).
Qed.

(* ===================================================================== *)
(** * The request with a tool call *)
(* ===================================================================== *)

Lemma silent_app (a b : list Effect) : silent a -> silent b -> silent (a ++ b).
Proof. unfold silent. intros Ha Hb. now rewrite events_app, Ha, Hb. Qed.

Lemma webSearch_silent (env : Env) (text : jsstring) :
  Traces (webSearch env text) silent.
Proof.
  apply (keeps_webSearch (fun _ => silent) eq_refl
           (fun _ _ => silent_app) (fun _ _ _ _ H => H) 0
           (fun _ => eq_refl) (fun _ => eq_refl)).
Qed.

(** Step 3 when the search client returns [searchData] in [w']. *)
Lemma toolCall_returns (env : Env) (safeQuery : jsstring) (w w' : World)
      (searchData : SearchResponse) :
  webSearch env safeQuery
    {| trace :=
         trace w
         ++ [ Write (textEvent reasoning
                       (lit "Searching the web" ++ ellipsis));
              FlushHeaders ];
       tick := tick w |}
  = (w', inr searchData) ->
  toolCall env safeQuery true w
  = ({| trace :=
          trace w' ++ [Write (toolCallEvent safeQuery searchData);
                       FlushHeaders];
        tick := tick w' |},
     inr (formatForLLM env searchData)).
Proof.
  intros H. unfold toolCall.
  cbv beta iota zeta delta [bind emit streamEvent ret trace tick].
  rewrite <- app_assoc. cbn [app].
  change (let (trace0, _) := w in trace0) with (trace w).
  change (let (_, tick0) := w in tick0) with (tick w).
  rewrite H. rewrite <- app_assoc. reflexivity.
Qed.

(** X15: when the query is valid, the decision call returns a text that
    parses to true, the search client returns a response and the synthesis
    call returns, the events are exactly: the acknowledgement, the notice
    that a decision is being taken, the decision outcome, the notice of the
    search, one tool call carrying the trimmed query and the whole
    response, the refining notice, the response, the elapsed time and
    done. *)
Theorem chat_with_tool :
  forall (env : Env) (req : Request) (query raw answer : jsstring)
         (k1 k2 : nat) (w' : World) (searchData : SearchResponse),
    requestQuery req = VString query ->
    forallb isWhiteSpace query = false ->
    completion env 2 k1 raw ->
    parseDecision raw = true ->
    webSearch env (trim query) (searching env (trim query) k1 raw)
    = (w', inr searchData) ->
    completion env (S (tick w')) k2 answer ->
    events (trace (fst (chat env req initial)))
    = toolAnswer (trim query) answer searchData
        (clock env (2 + tick w' + k2)%nat - clock env 0%nat)
    /\ snd (chat env req initial) = inr tt.
Proof.
  intros env req query raw answer k1 k2 w' sd Hq Hnb H1 Hd Hws H2.
  destruct w' as [t' n']. cbn [tick] in *.
  rewrite (chat_decided env req query raw k1 Hq Hnb H1), Hd.
  pose proof (toolCall_returns env (trim query)
                (decided env (trim query) k1 raw) _ sd Hws) as Htool.
  match type of Htool with
  | _ = (?w3, _) =>
      rewrite (guarded_ext _
                 (wrapUp env (trim query) (clock env 0%nat) true
                    (formatForLLM env sd)) _ w3)
  end.
  2:{ unfold afterDecision, bind. rewrite Htool. reflexivity. }
  destruct (webSearch_silent env (trim query)
              (searching env (trim query) k1 raw)) as [tr [Etr Hsil]].
  rewrite Hws in Etr. cbn [fst trace] in Etr.
  unfold guarded, wrapUp, synthesize, finalize.
  cbv beta iota zeta delta
    [bind emit ask dateNow streamEvent tryFinally tryCatch ret trace tick].
  rewrite (callGemini_completes env _
             {| trace := _; tick := S n' |} k2 answer H2).
  cbv beta iota zeta delta [trace tick fst snd].
  split; [|reflexivity].
  rewrite Etr. unfold searching, decided. cbn [trace].
  rewrite Hd. rewrite !events_app, !events_rounds, Hsil. reflexivity.
Qed.

Lemma completion_at_once (env : Env) (n : nat) (t : jsstring) :
  postOutcome env n = inr {| candidateText := Some t |} ->
  truthy t = true ->
  completion env n 0 (trim t).
Proof.
  intros Ho Ht. exists (fun _ => mkError []), t.
  split; [intros j Hj; lia|]. split; [unfold defaultRetries; lia|].
  rewrite Nat.add_0_r. now repeat split.
Qed.

(** In mock mode the tool call carries the three fixed results. *)
Lemma chat_with_tool_witness :
  events (trace (fst (chat mockEnv (askFor weather) initial)))
  = toolAnswer (trim weather) (lit "true") (mockResponse (trim weather))
      (clock mockEnv 5%nat - clock mockEnv 0%nat)
  /\ snd (chat mockEnv (askFor weather) initial) = inr tt.
Proof.
  exact (chat_with_tool mockEnv (askFor weather) weather (lit "true")
           (lit "true") 0 0
           (searching mockEnv (trim weather) 0 (lit "true"))
           (mockResponse (trim weather))
           eq_refl eq_refl
           (completion_at_once mockEnv 2 (lit "true") eq_refl eq_refl)
           eq_refl eq_refl
           (completion_at_once mockEnv 4 (lit "true") eq_refl eq_refl)).
Defined.

(* ===================================================================== *)
(** * The request without a tool call *)
(* ===================================================================== *)

Lemma events_lastAttempt (p : jsstring) (k : nat) :
  events (lastAttempt p k) = [].
Proof. unfold lastAttempt. now destruct (k <? defaultRetries)%nat. Qed.

Lemma getCost_rounds (p : jsstring) (i k : nat) :
  total getCost (rounds (Post p) i k) = 0%nat.
Proof.
  revert i. induction k as [|k IH]; intros i; [reflexivity|].
  rewrite rounds_succ. unfold total in *. simpl. apply IH.
Qed.

(** A call of the completion client completes or fails. *)
Lemma completion_or_callFails (env : Env) (n : nat) :
  (exists answer k, completion env n k answer) \/ callFails env n.
Proof.
  pose proof (callGemini_returns_iff env [] {| trace := []; tick := n |})
    as Hiff. cbn [tick] in Hiff.
  destruct (callGemini env [] {| trace := []; tick := n |}) as [w1 [e|a]].
  - right. intros k answer Hc.
    destruct (proj2 (Hiff answer)) as [w' Hw]; [now exists k|].
    discriminate.
  - left. destruct (proj1 (Hiff a)) as [k Hc]; [now exists w1|].
    now exists a, k.
Qed.

(** C2, as the code has it: when the query is valid and the decision call
    returns a text that parses to false, the handler returns and no event
    is a tool call.  When the synthesis call returns, the events are
    exactly: the acknowledgement, the notice that a decision is being
    taken, the decision outcome, the refining notice, the response, the
    elapsed time and done, seven events.  When the synthesis call fails,
    they are exactly the first four of these and one error event whose
    text starts with [Agent error: LLM unavailable: ].  The synthesis call
    does one or the other. *)
Theorem chat_without_tool :
  forall (env : Env) (req : Request) (query raw : jsstring) (k1 : nat),
    requestQuery req = VString query ->
    forallb isWhiteSpace query = false ->
    completion env 2 k1 raw ->
    parseDecision raw = false ->
    (forall (answer : jsstring) (k2 : nat),
        completion env (4 + k1) k2 answer ->
        events (trace (fst (chat env req initial)))
        = directAnswer (trim query) answer
            (clock env (5 + k1 + k2)%nat - clock env 0%nat))
    /\ (callFails env (4 + k1) ->
        exists msg,
          events (trace (fst (chat env req initial)))
          = directFailure (trim query) msg)
    /\ ((exists answer k2, completion env (4 + k1) k2 answer)
        \/ callFails env (4 + k1))
    /\ snd (chat env req initial) = inr tt
    /\ count isToolCall (events (trace (fst (chat env req initial)))) = 0%nat.
Proof.
  intros env req query raw k1 Hq Hnb H1 Hd.
  split; [|split; [|split; [|split]]].
  - intros answer k2 H2.
    unfold chat. rewrite Hq, (trim_nonblank query Hnb).
    cbv beta iota zeta delta
      [negb bind emit ask dateNow streamEvent tryFinally tryCatch pipeline
       acknowledge decide toolCall synthesize finalize ret initial trace tick].
    rewrite (callGemini_completes env _
               {| trace := _; tick := 2 |} k1 raw H1).
    cbv beta iota zeta delta
      [negb bind emit ask dateNow streamEvent tryFinally tryCatch ret
       trace tick].
    rewrite Hd.
    cbv beta iota zeta delta
      [negb bind emit ask dateNow streamEvent tryFinally tryCatch ret
       trace tick].
    rewrite (callGemini_completes env _
               {| trace := _; tick := 4 + k1 |} k2 answer H2).
    cbv beta iota zeta delta
      [negb bind emit ask dateNow streamEvent tryFinally tryCatch ret
       trace tick fst snd].
    rewrite !events_app, !events_rounds. reflexivity.
  - intros Hfail.
    unfold chat. rewrite Hq, (trim_nonblank query Hnb).
    cbv beta iota zeta delta
      [negb bind emit ask dateNow streamEvent tryFinally tryCatch pipeline
       acknowledge decide toolCall synthesize finalize ret initial trace tick].
    rewrite (callGemini_completes env _
               {| trace := _; tick := 2 |} k1 raw H1).
    cbv beta iota zeta delta
      [negb bind emit ask dateNow streamEvent tryFinally tryCatch ret
       trace tick].
    rewrite Hd.
    cbv beta iota zeta delta
      [negb bind emit ask dateNow streamEvent tryFinally tryCatch ret
       trace tick].
    match goal with
    | |- context [callGemini env ?p ?w] =>
        destruct (callGemini_run env p w) as [k [log [Hk [Ht [Htick Hend]]]]];
        pose proof (callGemini_returns_iff env p w) as Hiff;
        destruct (callGemini env p w) as [w1 r]
    end.
    cbn [fst snd trace tick] in *.
    destruct Hend as [[answer [-> _]] | [msg [-> ->]]].
    + exfalso. destruct (proj1 (Hiff answer)) as [k' Hc]; [now exists w1|].
      exact (Hfail k' answer Hc).
    + exists msg. destruct w1 as [t1 n1]. cbn [trace tick] in *. subst t1.
      cbv beta iota zeta delta [onError bind emit streamEvent fst snd trace].
      cbn [message mkError].
      rewrite !events_app, !events_rounds, events_lastAttempt. reflexivity.
  - apply completion_or_callFails.
  - apply chat_closes_once.
  - exact (chat_decision_false env req query raw k1 Hq Hnb H1 Hd).
Qed.

(** [chat_without_tool] with one retry of the decision call and a synthesis
    call that returns, and with a synthesis call that is refused. *)
Lemma chat_without_tool_witness :
  events (trace (fst (chat directEnv (askFor twoPlusTwo) initial)))
  = directAnswer (trim twoPlusTwo) (lit "2 + 2 = 4.")
      (clock directEnv 6%nat - clock directEnv 0%nat)
  /\ (exists msg,
         events (trace (fst (chat refusedEnv (askFor twoPlusTwo) initial)))
         = directFailure (trim twoPlusTwo) msg).
Proof.
  assert (H1 : completion directEnv 2 1 (lit "false")).
  { exists (fun _ => err503), (lit "false"). split.
    - intros j Hj. destruct j as [|j]; [now split | lia].
    - split; [unfold defaultRetries; lia | now repeat split]. }
  assert (H2 : completion directEnv (4 + 1) 0 (lit "2 + 2 = 4.")).
  { exists (fun _ => err503), (lit "2 + 2 = 4."). split.
    - intros j Hj. lia.
    - split; [unfold defaultRetries; lia | now repeat split]. }
  assert (H3 : completion refusedEnv 2 0 (lit "false")).
  { exists (fun _ => err503), (lit "false"). split.
    - intros j Hj. lia.
    - split; [unfold defaultRetries; lia | now repeat split]. }
  assert (H4 : callFails refusedEnv (4 + 0)).
  { intros k answer [errs [t [_ [_ [Ho _]]]]]. discriminate. }
  split.
  - exact (proj1 (chat_without_tool directEnv (askFor twoPlusTwo) twoPlusTwo
                    (lit "false") 1 eq_refl eq_refl H1 eq_refl)
             (lit "2 + 2 = 4.") 0%nat H2).
  - exact (proj1 (proj2 (chat_without_tool refusedEnv (askFor twoPlusTwo)
                           twoPlusTwo (lit "false") 0 eq_refl eq_refl H3
                           eq_refl))
             H4).
Defined.

(** The decision is false, and the stream carries seven events, the second
    of them the notice that a decision is being taken; and when the
    synthesis call is refused, the stream ends with an error event, without
    response or done. *)
Lemma chat_without_tool_events :
  map (fun e => (type e, joined (content e)))
      (events (trace (fst (chat directEnv (askFor twoPlusTwo) initial))))
  = [ (reasoning, lit "Received: " ++ dq ++ twoPlusTwo ++ dq);
      (reasoning, lit "Deciding if tool needed...");
      (reasoning, lit "Internal knowledge sufficient.");
      (reasoning, lit "Refining answer...");
      (response, lit "2 + 2 = 4.");
      (reasoning, lit "Completed in 240ms");
      (done, []) ]
  /\ map (fun e => (type e, joined (content e)))
         (events (trace (fst (chat refusedEnv (askFor twoPlusTwo) initial))))
     = [ (reasoning, lit "Received: " ++ dq ++ twoPlusTwo ++ dq);
         (reasoning, lit "Deciding if tool needed...");
         (reasoning, lit "Internal knowledge sufficient.");
         (reasoning, lit "Refining answer...");
         (error, lit "Agent error: LLM unavailable: API key not valid") ].
Proof. split; vm_compute; reflexivity. Qed.

(* ===================================================================== *)
(** * The request whose decision call fails *)
(* ===================================================================== *)

(** X16: when the query is valid and the decision call fails, the stream
    carries the acknowledgement, the notice that a decision is being taken
    and one error event whose text starts with
    [Agent error: LLM unavailable: ]; nothing is sent to the search
    service, and the handler returns normally. *)
Theorem chat_decision_call_fails :
  forall (env : Env) (req : Request) (query : jsstring),
    requestQuery req = VString query ->
    forallb isWhiteSpace query = false ->
    decisionFails env ->
    exists msg,
      events (trace (fst (chat env req initial)))
      = [ textEvent reasoning (lit "Received: " ++ dq ++ trim query ++ dq);
          textEvent reasoning (lit "Deciding if tool needed...");
          textEvent error
            (lit "Agent error: " ++ lit "LLM unavailable: " ++ msg) ]
      /\ total getCost (trace (fst (chat env req initial))) = 0%nat
      /\ snd (chat env req initial) = inr tt.
Proof.
  intros env req query Hq Hnb Hfail. unfold chat.
  rewrite Hq, (trim_nonblank query Hnb). cbn [negb].
  cbv beta iota zeta delta
    [bind emit ask dateNow streamEvent tryFinally tryCatch pipeline
     acknowledge decide ret initial trace tick].
  match goal with
  | |- context [callGemini env ?p ?w] =>
      destruct (callGemini_run env p w) as [k [log [Hk [Ht [Htick Hend]]]]];
      pose proof (callGemini_returns_iff env p w) as Hiff;
      destruct (callGemini env p w) as [w1 r]
  end.
  cbn [fst snd trace tick] in *.
  destruct Hend as [[answer [-> _]] | [msg [-> ->]]].
  - exfalso. destruct (proj1 (Hiff answer)) as [k' Hc]; [now exists w1|].
    exact (Hfail k' answer Hc).
  - exists msg. destruct w1 as [t1 n1]. cbn [trace tick] in *. subst t1.
    cbv beta iota zeta delta [onError bind emit streamEvent fst snd trace].
    cbn [message mkError].
    split; [|split; [|reflexivity]].
    + rewrite !events_app, events_rounds, events_lastAttempt. reflexivity.
    + rewrite !total_app, getCost_rounds. unfold lastAttempt.
      destruct (k <? defaultRetries)%nat; reflexivity.
Qed.

(** A completion service that always answers 503. *)
Lemma chat_decision_call_fails_witness :
  exists msg,
    events (trace (fst (chat bareEnv (askFor weather) initial)))
    = [ textEvent reasoning (lit "Received: " ++ dq ++ trim weather ++ dq);
        textEvent reasoning (lit "Deciding if tool needed...");
        textEvent error
          (lit "Agent error: " ++ lit "LLM unavailable: " ++ msg) ]
    /\ total getCost (trace (fst (chat bareEnv (askFor weather) initial)))
       = 0%nat
    /\ snd (chat bareEnv (askFor weather) initial) = inr tt.
Proof.
  assert (H : decisionFails bareEnv).
  { intros k answer [errs [t [_ [_ [Ho _]]]]]. discriminate. }
  exact (chat_decision_call_fails bareEnv (askFor weather) weather
           eq_refl eq_refl H).
Defined.

(* ===================================================================== *)
(** * Tool calls and the decision *)
(* ===================================================================== *)

(** X18: once the decision call has returned, the number of tool-call
    events is settled by the decision and the query alone, whatever
    happens afterwards: none when the decision is false, one when it is
    true and the trimmed query is well-formed UTF-16, none when it is true
    and the trimmed query is not. *)
Theorem chat_tool_calls_by_decision :
  forall (env : Env) (req : Request) (query raw : jsstring) (k : nat),
    requestQuery req = VString query ->
    forallb isWhiteSpace query = false ->
    completion env 2 k raw ->
    toolCalls (trace (fst (chat env req initial)))
    = if parseDecision raw && isWellFormed (trim query) then 1%nat
      else 0%nat.
Proof.
  intros env req query raw k Hq Hnb H1.
  destruct (parseDecision raw) eqn:Hd; cbn [andb].
  - destruct (isWellFormed (trim query)) eqn:Hwf.
    + apply encodeURIComponent_wellFormed in Hwf as [sq Hsq].
      apply (chat_decision_true env req query raw sq k Hq Hnb H1 Hd).
      unfold encodes. now rewrite trim_idempotent.
    + apply (chat_decision_true_unencodable env req query raw k Hq Hnb H1 Hd).
      rewrite trim_idempotent.
      destruct (URI.encodeURIComponent (trim query)) as [sq|] eqn:E;
        [|reflexivity].
      assert (isWellFormed (trim query) = true)
        by (apply encodeURIComponent_wellFormed; now exists sq).
      congruence.
  - apply (chat_decision_false env req query raw k Hq Hnb H1 Hd).
Qed.

(** A true decision on a well-formed query: one tool call. *)
Lemma chat_tool_calls_by_decision_witness :
  toolCalls (trace (fst (chat mockEnv (askFor weather) initial))) = 1%nat.
Proof.
  exact (chat_tool_calls_by_decision mockEnv (askFor weather) weather
           (lit "true") 0 eq_refl eq_refl
           (completion_at_once mockEnv 2 (lit "true") eq_refl eq_refl)).
Defined.

(* ===================================================================== *)
(** * More on the two clients *)
(* ===================================================================== *)

(** X2: the completion client returns a text exactly when, starting at the
    current tick, the service fails transiently fewer than three times and
    then answers with a text that is not empty; what it returns is that
    text, trimmed. *)
Theorem callGemini_returns_exactly_when :
  forall (env : Env) (p : jsstring) (w : World) (answer : jsstring),
    (exists w', callGemini env p w = (w', inr answer))
    <-> exists k, completion env (tick w) k answer.
Proof. exact callGemini_returns_iff. Qed.

(** X19: in live mode, when the search service answers without results
    (the list is absent or empty), the response has no results and the
    summary [No results found.], and its total is the one the service
    reported, 0 when it reported none. *)
Theorem webSearch_no_results :
  forall (env : Env) (text sq : jsstring) (w : World) (data : SearchData),
    liveWithKey env ->
    encodes text sq ->
    getOutcome env (tick w) = inr data ->
    withoutResults data ->
    snd (webSearch env text w)
    = inr {| query := text;
             totalResults :=
               match total_results data with Some n => n | None => 0 end;
             results := [];
             summary := Some (lit "No results found.") |}.
Proof.
  intros env text sq w data Hl He Ho Hnone.
  rewrite (webSearch_success env text sq w data He Hl Ho). cbn [snd].
  destruct Hnone as [-> | ->]; reflexivity.
Qed.

(** No results, but a total of 12: the total is passed on. *)
Lemma webSearch_no_results_witness :
  snd (webSearch emptyEnv weather initial)
  = inr {| query := weather; totalResults := 12; results := [];
           summary := Some (lit "No results found.") |}.
Proof.
  exact (webSearch_no_results emptyEnv weather
           (lit "current%20weather%20in%20Paris") initial noHits
           (conj eq_refl eq_refl) eq_refl eq_refl (or_intror eq_refl)).
Defined.

Lemma getCost_decided (env : Env) (safeQuery : jsstring) (k : nat)
      (raw : jsstring) :
  total getCost (trace (decided env safeQuery k raw)) = 0%nat.
Proof.
  unfold decided. cbn [trace]. rewrite !total_app, getCost_rounds.
  reflexivity.
Qed.

(** X20: when the decision is false, nothing is sent to the search
    service, whatever the mode and whatever happens in the synthesis. *)
Theorem chat_no_search_when_false :
  forall (env : Env) (req : Request) (query raw : jsstring) (k : nat),
    requestQuery req = VString query ->
    forallb isWhiteSpace query = false ->
    completion env 2 k raw ->
    parseDecision raw = false ->
    total getCost (trace (fst (chat env req initial))) = 0%nat.
Proof.
  intros env req query raw k Hq Hnb H1 Hd.
  rewrite (chat_decided env req query raw k Hq Hnb H1), Hd.
  rewrite (guarded_ext
             (afterDecision env (trim query) (clock env 0%nat) false)
             (wrapUp env (trim query) (clock env 0%nat) false [])
             (decided env (trim query) k raw)
             (decided env (trim query) k raw) eq_refl).
  destruct (guarded_run (fun n tr => (total getCost tr <= n)%nat)
              (wrapUp env (trim query) (clock env 0%nat) false [])
              (wrapUpBound 0 0 (fun _ => 0%nat))
              (decided env (trim query) k raw))
    as [tr [ending [Hw [-> Hend]]]].
  - apply (wrapUp_run (fun n tr => (total getCost tr <= n)%nat)).
    + unfold total. simpl. lia.
    + intros n k' a b Ha Hb. rewrite total_app. lia.
    + intros n k' a Hnk Ha. lia.
    + intros p. unfold total. simpl. lia.
    + unfold total. simpl. lia.
    + intros i. unfold total. simpl. lia.
    + intros m. unfold total. simpl. lia.
    + intros ev _. unfold total. simpl. lia.
  - rewrite !total_app, getCost_decided.
    assert (He : total getCost ending = 0%nat)
      by (destruct Hend as [-> | [err ->]]; reflexivity).
    rewrite He. change (total getCost [End]) with 0%nat.
    change (wrapUpBound 0 0 (fun _ => 0%nat)) with 0%nat in Hw. lia.
Qed.

(** A false decision in live mode with a credential: no request to the
    search service. *)
Lemma chat_no_search_when_false_witness :
  total getCost (trace (fst (chat declineEnv (askFor twoPlusTwo) initial)))
  = 0%nat.
Proof.
  assert (H1 : completion declineEnv 2 0 (lit "false")).
  { exists (fun _ => err503), (lit "false"). split.
    - intros j Hj. lia.
    - split; [unfold defaultRetries; lia | now repeat split]. }
  exact (chat_no_search_when_false declineEnv (askFor twoPlusTwo) twoPlusTwo
           (lit "false") 0 eq_refl eq_refl H1 eq_refl).
Defined.
